(** * pprofetheus: CPU-profile collector, shallow embedding and properties

    Embedding of [pprofetheus.go]: the symbol resolver [mapLocations], the
    per-sample aggregation inside [Collect], and the [Start]/[Stop]/[Collect]
    life cycle of [cpuProfileCollector].

    Conventions.
    - [uint64] and [int64] values are [Z]; the one place where the source
      does unsigned arithmetic that can wrap ([s.Addr+uint64(s.Size)]) has
      the wrap-around written out.
    - Go maps ([map[uint64]string], the label-indexed children of a
      [prometheus.CounterVec]) are [gmap]s.
    - [float64] is an interface ([Float64]); its instance is IEEE-754
      binary64, the primitive floats. What is proved about the order of
      binary64 goes through their specification ([SpecFloat], related to
      the primitives by [FloatAxioms]).
    - The mutex makes [Start], [Stop] and [Collect] atomic, so each is one
      transition of a sequential state machine over [World].
    - A Go [panic] is an explicit outcome carrying the state at the point
      of the abort. *)

From Stdlib Require Import ZArith Uint63 PrimFloat Floats.
From stdpp Require Import gmap strings list fin_maps.

Local Open Scope Z_scope.

(** ** float64 *)

(** The operations the collector performs on [float64] values. *)
Class Float64 := {
  float64 : Type;
  f_zero : float64;                       (* value of a fresh counter *)
  f_add : float64 → float64 → float64;    (* + *)
  f_div : float64 → float64 → float64;    (* / *)
  f_of_int : Z → float64;                 (* float64(x) for an integer x *)
  f_ltb : float64 → float64 → bool;       (* < *)
}.

(** IEEE-754 binary64. [float64(x)] for an [int64] [x] rounds to nearest;
    [of_uint63] covers [0 .. 2^63-1], the sign is put back by negation and
    [-2^63] is the exact power of two. *)
Definition float_of_int64 (x : Z) : float :=
  if x =? - 2 ^ 63 then PrimFloat.opp (PrimFloat.mul (of_uint63 (Uint63.of_Z (2 ^ 62))) 2%float)
  else if x <? 0 then PrimFloat.opp (of_uint63 (Uint63.of_Z (- x)))
  else of_uint63 (Uint63.of_Z x).

Definition ieee_float64 : Float64 := {|
  float64 := float;
  f_zero := 0%float;
  f_add := PrimFloat.add;
  f_div := PrimFloat.div;
  f_of_int := float_of_int64;
  f_ltb := PrimFloat.ltb;
|}.

(** *** Rounding in binary64 *)

(** The float that [binary_round_aux] returns for the mantissa and the
    exponent it reaches after its two shifts. *)
Definition rounded (sx : bool) (m2 e2 : Z) : spec_float :=
  match m2 with
  | Z0 => S754_zero sx
  | Zpos p => if e2 <=? emax - prec then S754_finite sx p e2
              else S754_infinity sx
  | Zneg _ => S754_nan
  end.

(** Not NaN, and of the given sign. *)
Definition SFsigned (sx : bool) (r : spec_float) : Prop :=
  match r with
  | S754_zero s | S754_infinity s | S754_finite s _ _ => s = sx
  | S754_nan => False
  end.

(** A value a counter can hold: not NaN and not below zero. *)
Definition SFgood (s : spec_float) : bool :=
  match s with
  | S754_zero _ => true
  | S754_finite false _ _ => true
  | S754_infinity false => true
  | _ => false
  end.

Definition good (x : float) : Prop := SFgood (Prim2SF x) = true.

(** ** Constants *)

Definition namespace : string := "pprof".
Definition cpuSubsystem : string := "cpu".
Definition cpuProfileRate : Z := 100.
Definition nanoToMilliDivisor : Z := 1000000.

(** ** Data model *)

(** [objfile.Sym], the fields the collector reads. *)
Record Sym := { Name : string; Addr : Z; Size : Z }.

(** [profile.Location], the fields the collector reads. *)
Record Location := { ID : Z; Address : Z }.

(** [profile.Sample]: the stack, leaf first, and the value vector. *)
Record Sample := { SLocation : list Location; Value : list Z }.

(** [profile.Profile] *)
Record Profile := { PLocation : list Location; PSample : list Sample }.

(** Conversion to, and arithmetic in, [uint64]. *)
Definition uint64 (x : Z) : Z := x mod 2 ^ 64.

(** ** Resolver *)

(** [l.Address >= s.Addr && l.Address <= s.Addr+uint64(s.Size)] *)
Definition inRange (s : Sym) (address : Z) : bool :=
  (address >=? Addr s) && (address <=? uint64 (Addr s + uint64 (Size s))).

(** The inner loop of [mapLocations] for one location: scan the symbols in
    order, store the name of the first hit under the location's ID and
    break. *)
Fixpoint scanSymbols (l : Location) (symbols : list Sym)
    (result : gmap Z string) : gmap Z string :=
  match symbols with
  | [] => result
  | s :: symbols' =>
      if inRange s (Address l) then <[ID l := Name s]> result
      else scanSymbols l symbols' result
  end.

Definition mapLocations (locations : list Location) (symbols : list Sym)
    : gmap Z string :=
  fold_left (λ result l, scanSymbols l symbols result) locations ∅.

(** Reading a Go map: a missing key yields the zero value, [""]. *)
Definition mapIndex (m : gmap Z string) (id : Z) : string :=
  default "" (m !! id).

(** The first symbol of the table whose range contains the address. *)
Definition firstSymbol (symbols : list Sym) (address : Z) : option Sym :=
  List.find (λ s, inRange s address) symbols.

(** The range test as a proposition: both bounds are inclusive, and the
    upper bound is computed in [uint64]. *)
Definition contains (s : Sym) (address : Z) : Prop :=
  Addr s ≤ address ≤ uint64 (Addr s + uint64 (Size s)).

(** ** Commands: state passing with panics *)

(** The result of running a command from a state: it returns a value and
    the new state, or it panics, and then the state is the one at the
    point of the abort. *)
Inductive Exec (S R : Type) : Type :=
  | Return (r : R) (s : S)
  | Panic (s : S).
Arguments Return {S R} r s.
Arguments Panic {S R} s.

Definition Cmd (S R : Type) : Type := S → Exec S R.

Definition ret {S R} (r : R) : Cmd S R := λ s, Return r s.

Definition panic {S R} : Cmd S R := λ s, Panic s.

Definition bind {S R R'} (c : Cmd S R) (k : R → Cmd S R') : Cmd S R' :=
  λ s, match c s with
       | Return r s' => k r s'
       | Panic s' => Panic s'
       end.

Declare Scope cmd_scope.
Delimit Scope cmd_scope with cmd.
Notation "x ← c1 ; c2" := (bind c1 (λ x, c2))
  (at level 20, c1 at level 100, c2 at level 200, only parsing) : cmd_scope.
Notation "c1 ;; c2" := (bind c1 (λ _, c2))
  (at level 100, c2 at level 200, only parsing, right associativity) : cmd_scope.
Local Open Scope cmd_scope.

(** [for _, x := range xs { body }] *)
Fixpoint forEach {S A} (xs : list A) (body : A → Cmd S unit) : Cmd S unit :=
  match xs with
  | [] => ret tt
  | x :: xs' => body x ;; forEach xs' body
  end.

(** The state a command ends in, however it ends. *)
Definition finalState {S R} (e : Exec S R) : S :=
  match e with Return _ s => s | Panic s => s end.

(** Whether a command returned. *)
Definition returned {S R} (e : Exec S R) : bool :=
  match e with Return _ _ => true | Panic _ => false end.

(** A command on a part of the state, run on the whole. *)
Definition zoom {S T R} (get : T → S) (set : S → T → T) (c : Cmd S R)
    : Cmd T R :=
  λ t, match c (get t) with
       | Return r s => Return r (set s t)
       | Panic s => Panic (set s t)
       end.

Definition bytes : Type := list Byte.byte.

(** [profile.Parse] returns a profile or an error. *)
Inductive ParseResult :=
  | ParseOk (p : Profile)
  | ParseErr (err : string).

(** ** The collector *)

Section Collector.

Context {FL : Float64}.

(** [profile.Parse], the decoder of the raw profile: a collaborator of
    the collector, any function from bytes to a profile or an error. *)
Variable Parse : bytes → ParseResult.

(** [cpuProfileCollector]. A [prometheus.CounterVec] is the map from the
    label value to the value of that child; a [prometheus.Counter] that
    is only ever [Inc]'d is its count. *)
Record cpuProfileCollector := {
  timeUsed : gmap string float64;
  timeUsedCum : gmap string float64;
  started : N;
  stopped : N;
  running : bool;
  symbols : list Sym;
}.

Definition set_timeUsed (vec : gmap string float64) (c : cpuProfileCollector) :=
  {| timeUsed := vec; timeUsedCum := timeUsedCum c; started := started c;
     stopped := stopped c; running := running c; symbols := symbols c |}.

Definition set_timeUsedCum (vec : gmap string float64) (c : cpuProfileCollector) :=
  {| timeUsed := timeUsed c; timeUsedCum := vec; started := started c;
     stopped := stopped c; running := running c; symbols := symbols c |}.

Definition set_started (n : N) (c : cpuProfileCollector) :=
  {| timeUsed := timeUsed c; timeUsedCum := timeUsedCum c; started := n;
     stopped := stopped c; running := running c; symbols := symbols c |}.

Definition set_stopped (n : N) (c : cpuProfileCollector) :=
  {| timeUsed := timeUsed c; timeUsedCum := timeUsedCum c; started := started c;
     stopped := n; running := running c; symbols := symbols c |}.

Definition set_running (b : bool) (c : cpuProfileCollector) :=
  {| timeUsed := timeUsed c; timeUsedCum := timeUsedCum c; started := started c;
     stopped := stopped c; running := b; symbols := symbols c |}.

(** The collector that [NewCPUProfileCollector] returns for the symbols
    of the executable. *)
Definition NewCPUProfileCollector (symbols : list Sym) : cpuProfileCollector :=
  {| timeUsed := ∅; timeUsedCum := ∅; started := 0; stopped := 0;
     running := false; symbols := symbols |}.

(** *** The metrics library *)

(** [vec.WithLabelValues(lv)]: the child for the label value, created at
    zero when it is not there yet. *)
Definition WithLabelValues (lv : string) (vec : gmap string float64)
    : gmap string float64 :=
  match vec !! lv with
  | Some _ => vec
  | None => <[lv := f_zero]> vec
  end.

(** [vec.WithLabelValues(lv).Add(v)]. By the contract of the metrics
    library a counter cannot decrease: [Counter.Add] panics when [v < 0].
    The child has been created by then. *)
Definition WithLabelValues_Add (lv : string) (v : float64)
    : Cmd (gmap string float64) unit :=
  λ vec,
    let vec' := WithLabelValues lv vec in
    if f_ltb v f_zero then Panic vec'
    else Return tt (<[lv := f_add (default f_zero (vec' !! lv)) v]> vec').

(** The map after one [Add] that went through: the child under [lv],
    read as zero when it was not there, has [v] added. *)
Definition credit (lv : string) (v : float64) (vec : gmap string float64)
    : gmap string float64 :=
  <[lv := f_add (default f_zero (vec !! lv)) v]> vec.

(** [v] added [k] times, one addition after the other. *)
Definition credits (k : nat) (v x : float64) : float64 :=
  Nat.iter k (λ y, f_add y v) x.

(** [counter.Inc()] *)
Definition Inc (n : N) : N := (n + 1)%N.

(** What goes on the channel of [Collect]. *)
Inductive MetricValue :=
  | FloatValue (x : float64)
  | CountValue (n : N).

Record Metric := {
  fqName : string;
  labels : list (string * string);
  value : MetricValue;
}.

Definition BuildFQName (namespace subsystem name : string) : string :=
  namespace +:+ "_" +:+ subsystem +:+ "_" +:+ name.

Definition labelNames : list string := ["function"].

(** [vec.Collect(ch)]: one metric for each child. *)
Definition CounterVec_Collect (name : string) (vec : gmap string float64)
    : list Metric :=
  (λ kv, {| fqName := BuildFQName namespace cpuSubsystem name;
            labels := zip labelNames [kv.1];
            value := FloatValue kv.2 |}) <$> map_to_list vec.

(** [counter.Collect(ch)] *)
Definition Counter_Collect (name : string) (n : N) : list Metric :=
  [{| fqName := BuildFQName namespace cpuSubsystem name;
      labels := [];
      value := CountValue n |}].

(** *** The runtime and the collector together *)

(** The process: the collector, the rate of the runtime's CPU profiler
    and the profile data the runtime has buffered. *)
Record World := {
  collector : cpuProfileCollector;
  profileRate : Z;
  profileData : list bytes;
}.

Definition set_collector (c : cpuProfileCollector) (w : World) : World :=
  {| collector := c; profileRate := profileRate w;
     profileData := profileData w |}.

Definition newWorld (symbols : list Sym) : World :=
  {| collector := NewCPUProfileCollector symbols; profileRate := 0;
     profileData := [] |}.

(** [runtime.SetCPUProfileRate(hz)]: the knob of the sampler; 0 turns
    sampling off. *)
Definition SetCPUProfileRate (hz : Z) : Cmd World unit :=
  λ w, Return tt {| collector := collector w; profileRate := hz;
                    profileData := profileData w |}.

(** [runtime.CPUProfile()]: the next chunk of buffered data, [nil] when
    there is none left. *)
Definition CPUProfile : Cmd World (option bytes) :=
  λ w, match profileData w with
       | [] => Return None w
       | data :: rest =>
           Return (Some data) {| collector := collector w;
                                 profileRate := profileRate w;
                                 profileData := rest |}
       end.

(** The drain loop of [Collect]; [fuel] bounds the number of rounds. *)
Fixpoint readProfile (fuel : nat) (allData : bytes) : Cmd World bytes :=
  match fuel with
  | O => ret allData
  | S fuel' =>
      data ← CPUProfile;
      match data with
      | None => ret allData
      | Some data => readProfile fuel' (allData ++ data)
      end
  end.

Definition onCollector {R} (c : Cmd cpuProfileCollector R) : Cmd World R :=
  zoom collector set_collector c.

Definition onTimeUsed {R} (c : Cmd (gmap string float64) R)
    : Cmd cpuProfileCollector R :=
  zoom timeUsed set_timeUsed c.

Definition onTimeUsedCum {R} (c : Cmd (gmap string float64) R)
    : Cmd cpuProfileCollector R :=
  zoom timeUsedCum set_timeUsedCum c.

(** [float64(x) / nanoToMilliDivisor] *)
Definition nanosToMillis (x : Z) : float64 :=
  f_div (f_of_int x) (f_of_int nanoToMilliDivisor).

(** The body of the loop over [p.Sample] in [Collect]. *)
Definition processSample (locations : gmap Z string) (s : Sample)
    : Cmd cpuProfileCollector unit :=
  if (length (SLocation s) =? 0)%nat || (length (Value s) <? 2)%nat then
    ret tt (* continue *)
  else
    match SLocation s !! 0%nat, Value s !! 1%nat with
    | Some l0, Some v1 =>
        onTimeUsed (WithLabelValues_Add (mapIndex locations (ID l0))
                      (nanosToMillis v1)) ;;
        forEach (SLocation s) (λ l,
          onTimeUsedCum (WithLabelValues_Add (mapIndex locations (ID l))
                           (nanosToMillis v1)))
    | _, _ => panic (* index out of range *)
    end.

(** The four [Collect] calls at the end of [Collect]. *)
Definition publish (c : cpuProfileCollector) : list Metric :=
  CounterVec_Collect "time_used_ms" (timeUsed c) ++
  CounterVec_Collect "time_used_cum_ms" (timeUsedCum c) ++
  Counter_Collect "started" (started c) ++
  Counter_Collect "stopped" (stopped c).

Definition Start : Cmd World unit :=
  λ w,
    if running (collector w) then ret tt w
    else
      (onCollector (λ c, Return tt (set_running true c)) ;;
       SetCPUProfileRate cpuProfileRate ;;
       onCollector (λ c, Return tt (set_started (Inc (started c)) c))) w.

Definition Stop : Cmd World unit :=
  λ w,
    if negb (running (collector w)) then ret tt w
    else
      (onCollector (λ c, Return tt (set_running false c)) ;;
       SetCPUProfileRate 0 ;;
       onCollector (λ c, Return tt (set_stopped (Inc (stopped c)) c))) w.

(** The part of [Collect] under [if c.running]. *)
Definition drainAndAggregate : Cmd World unit :=
  SetCPUProfileRate 0 ;;
  allData ← (λ w, readProfile (S (length (profileData w))) [] w);
  match Parse allData with
  | ParseErr err => panic
  | ParseOk p =>
      onCollector (λ c,
        let locations := mapLocations (PLocation p) (symbols c) in
        forEach (PSample p) (processSample locations) c)
  end.

Definition Collect : Cmd World (list Metric) :=
  (λ w, if running (collector w) then drainAndAggregate w else ret tt w) ;;
  ch ← (λ w, ret (publish (collector w)) w);
  (λ w, if running (collector w) then SetCPUProfileRate cpuProfileRate w
        else ret tt w) ;;
  ret ch.

(** *** Sequences of operations *)

(** What happens to the process: the three operations of the collector,
    and the runtime buffering a chunk of profile data. *)
Inductive Op :=
  | OpStart
  | OpStop
  | OpCollect
  | OpProfiled (data : bytes).

Definition step (op : Op) : Cmd World (list Metric) :=
  match op with
  | OpStart => Start ;; ret []
  | OpStop => Stop ;; ret []
  | OpCollect => Collect
  | OpProfiled data =>
      λ w, Return [] {| collector := collector w;
                        profileRate := profileRate w;
                        profileData := profileData w ++ [data] |}
  end.

(** A panic ends the run. *)
Fixpoint run (ops : list Op) : Cmd World (list Metric) :=
  match ops with
  | [] => ret []
  | op :: ops' => ch ← step op; ch' ← run ops'; ret (ch ++ ch')
  end.

(** *** Notions the properties are stated with *)

(** The function a frame is accounted to. *)
Definition frameName (locations : gmap Z string) (l : Location) : string :=
  mapIndex locations (ID l).

(** How often a function occurs in a stack. *)
Definition occurrences (locations : gmap Z string) (stack : list Location)
    (function : string) : nat :=
  length (filter (λ l, frameName locations l = function) stack).

(** Two collectors that differ in the two time counters at most. *)
Definition sameLifecycle (c c' : cpuProfileCollector) : Prop :=
  running c' = running c ∧ started c' = started c ∧
  stopped c' = stopped c ∧ symbols c' = symbols c.

(** The state after the drain loop, and after an abort of [Collect]. *)
Definition drained (c : cpuProfileCollector) : World :=
  {| collector := c; profileRate := 0; profileData := [] |}.

(** The state after a scrape of a running collector that went through. *)
Definition resumed (c : cpuProfileCollector) : World :=
  {| collector := c; profileRate := cpuProfileRate; profileData := [] |}.

(** The profiler's rate agrees with [running]. *)
Definition rateConsistent (w : World) : Prop :=
  (profileRate w = cpuProfileRate ↔ running (collector w) = true) ∧
  (profileRate w = 0 ↔ running (collector w) = false).

(** *** Descriptors *)

(** [prometheus.Desc], as far as the options of [NewCPUProfileCollector]
    determine it. *)
Record Desc := {
  descFqName : string;
  descHelp : string;
  variableLabels : list string;
}.

(** The descriptors of the four metrics that [NewCPUProfileCollector]
    creates. *)
Definition timeUsedDesc : Desc :=
  {| descFqName := BuildFQName namespace cpuSubsystem "time_used_ms";
     descHelp := "CPU time used by function in milliseconds";
     variableLabels := labelNames |}.

Definition timeUsedCumDesc : Desc :=
  {| descFqName := BuildFQName namespace cpuSubsystem "time_used_cum_ms";
     descHelp := "CPU time used by function in milliseconds (cumulated)";
     variableLabels := labelNames |}.

Definition startedDesc : Desc :=
  {| descFqName := BuildFQName namespace cpuSubsystem "started";
     descHelp := "counter of pprof start events in CPU profile collector";
     variableLabels := [] |}.

Definition stoppedDesc : Desc :=
  {| descFqName := BuildFQName namespace cpuSubsystem "stopped";
     descHelp := "counter of pprof stop events in CPU profile collector";
     variableLabels := [] |}.

(** [Describe]: the four [Describe] calls, each sending the one
    descriptor of its metric. *)
Definition Describe (c : cpuProfileCollector) : list Desc :=
  [timeUsedDesc] ++ [timeUsedCumDesc] ++ [startedDesc] ++ [stoppedDesc].

(** *** Further notions *)

(** The guard of the loop over the samples: [continue]. *)
Definition skipped (s : Sample) : bool :=
  (length (SLocation s) =? 0)%nat || (length (Value s) <? 2)%nat.

(** A sample that the loop gets through: passed over, or of an amount
    that [Add] accepts. *)
Definition creditable (s : Sample) : bool :=
  skipped s ||
  match Value s !! 1%nat with
  | Some v1 => negb (f_ltb (nanosToMillis v1) f_zero)
  | None => true
  end.

(** One more start than stops while running, as many otherwise. *)
Definition countsConsistent (c : cpuProfileCollector) : Prop :=
  started c = (stopped c + (if running c then 1 else 0))%N.

(** Every function with a self-time counter has a cumulative counter. *)
Definition selfWithinCum (c : cpuProfileCollector) : Prop :=
  ∀ function, is_Some (timeUsed c !! function) →
              is_Some (timeUsedCum c !! function).

(** The functions of the leaves of the samples that are not passed
    over, and the functions of all their frames. *)
Definition leafNames (locations : gmap Z string) (samples : list Sample)
    : list string :=
  omap (λ s, if skipped s then None
             else frameName locations <$> SLocation s !! 0%nat) samples.

Definition stackNames (locations : gmap Z string) (samples : list Sample)
    : list string :=
  samples ≫= λ s, if skipped s then []
                   else frameName locations <$> SLocation s.

(** What identifies a published metric: its name and its labels. *)
Definition metricKey (m : Metric) : string * list (string * string) :=
  (fqName m, labels m).

End Collector.

(** *** Monotone counters *)

Section Monotone.

#[local] Existing Instance ieee_float64.

(** Every child holds a value that is not NaN and not below zero. *)
Definition vecGood (vec : gmap string float64) : Prop :=
  ∀ function (x : float64), vec !! function = Some x → good x.

(** No child disappears and no child's value decreases, in the order
    [<=] of binary64. *)
Definition vecLe (old new : gmap string float64) : Prop :=
  ∀ function (x : float64), old !! function = Some x →
    ∃ y : float64, new !! function = Some y ∧ (x <=? y)%float = true.

Definition goodCounters (c : cpuProfileCollector) : Prop :=
  vecGood (timeUsed c) ∧ vecGood (timeUsedCum c).

(** None of the four counters has decreased from [c] to [c']. *)
Definition countersLe (c c' : cpuProfileCollector) : Prop :=
  vecLe (timeUsed c) (timeUsed c') ∧
  vecLe (timeUsedCum c) (timeUsedCum c') ∧
  (started c ≤ started c')%N ∧
  (stopped c ≤ stopped c')%N.

(** The states whose counters are not NaN and not below zero and none of
    whose counters is below its value in [c0]. *)
Definition grownFrom (c0 c : cpuProfileCollector) : Prop :=
  goodCounters c ∧ countersLe c0 c.

End Monotone.

(** *** Scenarios *)

Module Scenario.

Definition f : Sym := {| Name := "f"; Addr := 100; Size := 50 |}.
Definition g : Sym := {| Name := "g"; Addr := 150; Size := 50 |}.
Definition h : Sym := {| Name := "h"; Addr := 0; Size := 40 |}.
Definition wide : Sym := {| Name := "wide"; Addr := 100; Size := 200 |}.

(** Two functions laid out one after the other. *)
Definition adjacentSymbols : list Sym := [f; g].

Definition at120 : Location := {| ID := 1; Address := 120 |}.
Definition at130 : Location := {| ID := 2; Address := 130 |}.
Definition at150 : Location := {| ID := 3; Address := 150 |}.
Definition at500 : Location := {| ID := 4; Address := 500 |}.

(** A recursive stack, 0.3 s. *)
Definition recursive : Sample :=
  {| SLocation := [at120; at130]; Value := [1; 300000000] |}.

(** A stack with its leaf outside every symbol, 0.5 s. *)
Definition outside : Sample :=
  {| SLocation := [at500; at120]; Value := [1; 500000000] |}.

(** A sample with one value only. *)
Definition short : Sample :=
  {| SLocation := [at120]; Value := [1] |}.

Definition profile : Profile :=
  {| PLocation := [at120; at130; at500];
     PSample := [recursive; outside; short] |}.

(** A decoder that accepts every input, and one that rejects every
    input. *)
Definition decodes (data : bytes) : ParseResult := ParseOk profile.
Definition malformed (data : bytes) : ParseResult := ParseErr "malformed".

End Scenario.

(** No address lies in the ranges of two entries of the table. *)
Definition disjointRanges (symbols : list Sym) : Prop :=
  ∀ address (i j : nat) si sj,
    symbols !! i = Some si → symbols !! j = Some sj →
    contains si address → contains sj address → i = j.

(** ** Facts about the resolver *)

Section Resolver.

Implicit Types (s : Sym) (l : Location) (symbols : list Sym)
  (locations : list Location) (result : gmap Z string).

Lemma inRange_contains s address :
  inRange s address = true ↔ contains s address.
Proof.
  unfold inRange, contains.
  rewrite andb_true_iff, Z.geb_le, Z.leb_le. tauto.
Qed.

Lemma inRange_not_contains s address :
  inRange s address = false ↔ ¬ contains s address.
Proof.
  rewrite <- inRange_contains. destruct (inRange s address); split; congruence.
Qed.

(** Where the sum does not leave [uint64] the bound is the plain sum. *)
Lemma uint64_no_wrap s :
  0 ≤ Addr s → 0 ≤ Size s → Addr s + Size s < 2 ^ 64 →
  uint64 (Addr s + uint64 (Size s)) = Addr s + Size s.
Proof.
  intros Ha Hs Hsum. unfold uint64.
  rewrite (Z.mod_small (Size s)) by lia. apply Z.mod_small. lia.
Qed.

Lemma scanSymbols_firstSymbol l symbols result :
  scanSymbols l symbols result =
  match firstSymbol symbols (Address l) with
  | Some s => <[ID l := Name s]> result
  | None => result
  end.
Proof.
  induction symbols as [|s symbols IH]; simpl; [done|].
  destruct (inRange s (Address l)); [done|apply IH].
Qed.

Lemma firstSymbol_split symbols address pre s post :
  symbols = pre ++ s :: post →
  Forall (λ s', ¬ contains s' address) pre →
  contains s address →
  firstSymbol symbols address = Some s.
Proof.
  intros -> Hpre Hs. unfold firstSymbol.
  induction Hpre as [|s' pre Hs' _ IH]; simpl.
  - apply inRange_contains in Hs. by rewrite Hs.
  - apply inRange_not_contains in Hs'. by rewrite Hs'.
Qed.

Lemma firstSymbol_Some symbols address s :
  firstSymbol symbols address = Some s →
  ∃ pre post, symbols = pre ++ s :: post ∧
    Forall (λ s', ¬ contains s' address) pre ∧ contains s address.
Proof.
  unfold firstSymbol. induction symbols as [|s0 symbols IH]; simpl; [done|].
  destruct (inRange s0 address) eqn:E.
  - intros [= ->]. exists [], symbols. split_and!; [done|constructor|].
    by apply inRange_contains.
  - intros H. destruct (IH H) as (pre & post & -> & Hpre & Hs).
    exists (s0 :: pre), post. split_and!; [done| |done].
    constructor; [by apply inRange_not_contains|done].
Qed.

Lemma firstSymbol_None symbols address :
  firstSymbol symbols address = None ↔
  Forall (λ s, ¬ contains s address) symbols.
Proof.
  unfold firstSymbol. induction symbols as [|s symbols IH]; simpl.
  - split; [constructor|done].
  - destruct (inRange s address) eqn:E.
    + split; [done|]. intros H. apply Forall_cons_1 in H as [H _].
      by apply inRange_contains in E.
    + rewrite IH. split.
      * intros H. constructor; [by apply inRange_not_contains|done].
      * intros H. by apply Forall_cons_1 in H as [_ H].
Qed.

(** One step of the outer loop either stores one entry or changes
    nothing. *)
Lemma scanSymbols_lookup l symbols result id :
  scanSymbols l symbols result !! id =
  match firstSymbol symbols (Address l) with
  | Some s => if decide (ID l = id) then Some (Name s) else result !! id
  | None => result !! id
  end.
Proof.
  rewrite scanSymbols_firstSymbol.
  destruct (firstSymbol symbols (Address l)); [|done].
  by rewrite lookup_insert.
Qed.

(** The entry under an ID after the outer loop, from any starting map:
    the last location with that ID that hit a symbol decides. *)
Lemma fold_scanSymbols_lookup locations symbols result id :
  fold_left (λ result l, scanSymbols l symbols result) locations result !! id =
  match
    List.find (λ l, bool_decide (ID l = id ∧
                 is_Some (firstSymbol symbols (Address l)))) (rev locations)
  with
  | Some l => Name <$> firstSymbol symbols (Address l)
  | None => result !! id
  end.
Proof.
  revert result. induction locations as [|l locations IH] using rev_ind;
    intros result; [done|].
  rewrite fold_left_app, rev_app_distr. simpl.
  rewrite scanSymbols_lookup.
  destruct (firstSymbol symbols (Address l)) as [s|] eqn:E.
  - destruct (decide (ID l = id)) as [Hid|Hid].
    + rewrite bool_decide_eq_true_2; [by rewrite E|]. split; [done|by eexists].
    + rewrite bool_decide_eq_false_2 by tauto. apply IH.
  - rewrite bool_decide_eq_false_2.
    + apply IH.
    + intros [_ [? ?]]. congruence.
Qed.

(** With IDs that identify addresses, the map holds for every location
    exactly what its own scan found. *)
Lemma mapLocations_lookup locations symbols l :
  l ∈ locations →
  (∀ l', l' ∈ locations → ID l' = ID l → Address l' = Address l) →
  mapLocations locations symbols !! ID l =
  Name <$> firstSymbol symbols (Address l).
Proof.
  intros Hl Hids. unfold mapLocations. rewrite fold_scanSymbols_lookup.
  destruct (List.find _ (rev locations)) as [l'|] eqn:E.
  - apply find_some in E as [Hin Hdec].
    apply bool_decide_eq_true in Hdec as [Hid _].
    apply in_rev, list_elem_of_In in Hin.
    by rewrite (Hids l' Hin Hid).
  - rewrite lookup_empty.
    destruct (firstSymbol symbols (Address l)) as [s|] eqn:Es; [|done].
    exfalso. eapply find_none in E.
    + apply bool_decide_eq_false in E. apply E. split; [done|].
      rewrite Es. by eexists.
    + apply in_rev. rewrite rev_involutive. by apply list_elem_of_In.
Qed.

(** The keys of the map are the IDs of the locations that hit a symbol. *)
Lemma mapLocations_is_Some locations symbols id :
  is_Some (mapLocations locations symbols !! id) ↔
  ∃ l, l ∈ locations ∧ ID l = id ∧
       is_Some (firstSymbol symbols (Address l)).
Proof.
  unfold mapLocations. rewrite fold_scanSymbols_lookup.
  destruct (List.find _ (rev locations)) as [l'|] eqn:E.
  - apply find_some in E as [Hin Hdec].
    apply bool_decide_eq_true in Hdec as [Hid Hsome].
    apply in_rev, list_elem_of_In in Hin. split.
    + intros _. by exists l'.
    + intros _. destruct Hsome as [s ->]. by eexists.
  - rewrite lookup_empty. split; [by intros [? ?]|].
    intros (l & Hl & Hid & Hsome). exfalso.
    eapply find_none in E.
    + apply bool_decide_eq_false in E. by apply E.
    + apply in_rev. rewrite rev_involutive. by apply list_elem_of_In.
Qed.

Lemma firstSymbol_is_Some symbols address :
  is_Some (firstSymbol symbols address) ↔
  ∃ s, s ∈ symbols ∧ contains s address.
Proof.
  split.
  - intros [s Hs]. apply firstSymbol_Some in Hs as (pre & post & -> & _ & Hc).
    exists s. split; [|done]. apply elem_of_app. right. by left.
  - intros (s & Hin & Hc).
    destruct (firstSymbol symbols address) as [s'|] eqn:E; [by eexists|].
    exfalso. apply firstSymbol_None in E.
    rewrite Forall_forall in E. by apply (E s).
Qed.

(** The position of the symbol the scan selects: no symbol before it
    contains the address. *)
Lemma firstSymbol_position symbols address s :
  firstSymbol symbols address = Some s →
  ∃ i : nat, symbols !! i = Some s ∧ contains s address ∧
    ∀ (j : nat) s', symbols !! j = Some s' → contains s' address → (i ≤ j)%nat.
Proof.
  intros (pre & post & -> & Hpre & Hs)%firstSymbol_Some.
  exists (length pre). split_and!; [|done|].
  - by rewrite list_lookup_middle.
  - intros j s' Hj Hs'. destruct (decide (length pre ≤ j)%nat); [done|].
    exfalso. rewrite lookup_app_l in Hj by lia.
    rewrite Forall_forall in Hpre. apply (Hpre s'); [|done].
    apply list_elem_of_lookup. by exists j.
Qed.

End Resolver.

(** ** Facts about commands *)

Section Commands.

Context {S A : Type}.

(** A property of the state that every round of the body keeps, returning
    or panicking, holds when the loop ends, however it ends. *)
Lemma forEach_finalState (P : S → Prop) (xs : list A) (body : A → Cmd S unit) (s : S) :
  (∀ x s, P s → P (finalState (body x s))) →
  P s → P (finalState (forEach xs body s)).
Proof.
  intros Hbody. revert s. induction xs as [|x xs IH]; intros s Hs; simpl; [done|].
  unfold bind. specialize (Hbody x s Hs).
  destruct (body x s) as [[] s'|s']; simpl in *; [by apply IH|done].
Qed.

End Commands.

(** ** Facts about the aggregator *)

Section Aggregator.

Context {FL : Float64}.

Implicit Types (vec : gmap string float64) (c : cpuProfileCollector)
  (locations : gmap Z string) (v : float64) (lv : string).

Lemma WithLabelValues_lookup lv vec :
  WithLabelValues lv vec !! lv = Some (default f_zero (vec !! lv)).
Proof.
  unfold WithLabelValues. destruct (vec !! lv) as [x|] eqn:E; simpl.
  - done.
  - by rewrite lookup_insert_eq.
Qed.

Lemma WithLabelValues_lookup_ne lv lv' vec :
  lv ≠ lv' → WithLabelValues lv vec !! lv' = vec !! lv'.
Proof.
  intros Hne. unfold WithLabelValues. destruct (vec !! lv); [done|].
  by rewrite lookup_insert_ne.
Qed.

(** An [Add] of a value that is not below zero goes through. *)
Lemma WithLabelValues_Add_ok lv v vec :
  f_ltb v f_zero = false →
  WithLabelValues_Add lv v vec = Return tt (credit lv v vec).
Proof.
  intros Hv. unfold WithLabelValues_Add. rewrite Hv. f_equal.
  unfold credit. rewrite WithLabelValues_lookup. simpl.
  unfold WithLabelValues. destruct (vec !! lv); [done|].
  by rewrite insert_insert_eq.
Qed.

(** An [Add] of a value below zero panics. *)
Lemma WithLabelValues_Add_panic lv v vec :
  f_ltb v f_zero = true →
  WithLabelValues_Add lv v vec = Panic (WithLabelValues lv vec).
Proof. intros Hv. unfold WithLabelValues_Add. by rewrite Hv. Qed.

Lemma credit_lookup lv v vec :
  credit lv v vec !! lv = Some (f_add (default f_zero (vec !! lv)) v).
Proof. unfold credit. by rewrite lookup_insert_eq. Qed.

Lemma credit_lookup_ne lv lv' v vec :
  lv ≠ lv' → credit lv v vec !! lv' = vec !! lv'.
Proof. intros Hne. unfold credit. by rewrite lookup_insert_ne. Qed.

Lemma credits_add k v x :
  credits k v (f_add x v) = f_add (credits k v x) v.
Proof. induction k as [|k IH]; simpl; [done|]. by rewrite IH. Qed.

(** The cumulative counters after crediting every frame of a stack. *)
Lemma fold_credit_lookup locations (stack : list Location) v vec function :
  fold_left (λ vec l, credit (frameName locations l) v vec) stack vec
    !! function =
  match occurrences locations stack function with
  | O => vec !! function
  | S k => Some (credits (S k) v (default f_zero (vec !! function)))
  end.
Proof.
  revert vec. unfold occurrences.
  induction stack as [|l stack IH]; intros vec; simpl; [done|].
  rewrite IH. rewrite filter_cons.
  destruct (decide (frameName locations l = function)) as [Heq|Hne].
  - rewrite Heq, credit_lookup. cbn [length default].
    destruct (length _) as [|k]; [done|].
    unfold id. by rewrite credits_add.
  - by rewrite credit_lookup_ne.
Qed.

(** The loop over the frames of a stack, when the amount is not below
    zero. *)
Lemma forEach_credit locations (stack : list Location) v c :
  f_ltb v f_zero = false →
  forEach stack (λ l,
    onTimeUsedCum (WithLabelValues_Add (mapIndex locations (ID l)) v)) c =
  Return tt
    (set_timeUsedCum
       (fold_left (λ vec l, credit (frameName locations l) v vec)
          stack (timeUsedCum c)) c).
Proof.
  intros Hv. revert c. induction stack as [|l stack IH]; intros c; simpl.
  - by destruct c.
  - unfold bind, onTimeUsedCum at 1, zoom.
    rewrite (WithLabelValues_Add_ok _ _ _ Hv). by rewrite IH.
Qed.

(** What [processSample] does with a sample that has a stack and two
    values, when the amount is not below zero. *)
Lemma processSample_valid locations s c (l0 : Location) (v1 : Z) :
  SLocation s !! 0%nat = Some l0 → Value s !! 1%nat = Some v1 →
  f_ltb (nanosToMillis v1) f_zero = false →
  processSample locations s c =
  Return tt
    (set_timeUsedCum
       (fold_left (λ vec l, credit (frameName locations l) (nanosToMillis v1) vec)
          (SLocation s) (timeUsedCum c))
       (set_timeUsed
          (credit (frameName locations l0) (nanosToMillis v1) (timeUsed c)) c)).
Proof.
  intros Hl0 Hv1 Hv. unfold processSample. rewrite Hl0, Hv1.
  apply lookup_lt_Some in Hl0 as Hlen0. apply lookup_lt_Some in Hv1 as Hlen1.
  destruct (length (SLocation s)) as [|n] eqn:En; [lia|].
  destruct (length (Value s)) as [|[|m]] eqn:Em; [lia|lia|]. simpl.
  unfold bind, onTimeUsed, zoom at 1.
  rewrite (WithLabelValues_Add_ok _ _ _ Hv).
  by rewrite (forEach_credit _ _ _ _ Hv).
Qed.

(** A sample without a stack or with fewer than two values is passed
    over. *)
Lemma processSample_skip locations s c :
  SLocation s = [] ∨ (length (Value s) < 2)%nat →
  processSample locations s c = Return tt c.
Proof.
  intros H. unfold processSample.
  destruct H as [->|H]; [done|].
  apply Nat.ltb_lt in H. rewrite H. by rewrite orb_true_r.
Qed.

(** A property of the collector that every [Add] keeps, going through
    or panicking, holds after [processSample], however it ends. *)
Lemma processSample_finalState (P : cpuProfileCollector → Prop) locations s c :
  (∀ c lv v, P c → P (finalState (onTimeUsed (WithLabelValues_Add lv v) c))) →
  (∀ c lv v, P c → P (finalState (onTimeUsedCum (WithLabelValues_Add lv v) c))) →
  P c → P (finalState (processSample locations s c)).
Proof.
  intros Hself Hcum Hc. unfold processSample.
  destruct (_ || _); [done|].
  destruct (SLocation s !! 0%nat) as [l0|]; [|done].
  destruct (Value s !! 1%nat) as [v1|]; [|done].
  unfold bind.
  specialize (Hself c (mapIndex locations (ID l0)) (nanosToMillis v1) Hc).
  destruct (onTimeUsed _ c) as [[] c1|c1]; simpl in Hself; [|done].
  apply (forEach_finalState P); [|done].
  intros l c2 Hc2. by apply Hcum.
Qed.

Lemma processSample_lifecycle c0 locations s c :
  sameLifecycle c0 c →
  sameLifecycle c0 (finalState (processSample locations s c)).
Proof.
  apply (processSample_finalState (sameLifecycle c0)).
  - intros c1 lv v Hc1. unfold onTimeUsed, zoom.
    by destruct (WithLabelValues_Add lv v (timeUsed c1)).
  - intros c1 lv v Hc1. unfold onTimeUsedCum, zoom.
    by destruct (WithLabelValues_Add lv v (timeUsedCum c1)).
Qed.

Lemma aggregate_lifecycle locations (samples : list Sample) c :
  sameLifecycle c (finalState (forEach samples (processSample locations) c)).
Proof.
  apply (forEach_finalState (sameLifecycle c)); [|done].
  intros s c1. apply processSample_lifecycle.
Qed.

End Aggregator.

(** ** Facts about the life cycle *)

Section Lifecycle.

Context {FL : Float64}.

Variable Parse : bytes → ParseResult.

Implicit Types (w : World) (c : cpuProfileCollector).

(** With one round more than there are chunks, the drain loop takes all
    of them. *)
Lemma readProfile_all (fuel : nat) (allData : bytes) c hz (data : list bytes) :
  (length data < fuel)%nat →
  readProfile fuel allData
    {| collector := c; profileRate := hz; profileData := data |} =
  Return (allData ++ concat data)
    {| collector := c; profileRate := hz; profileData := [] |}.
Proof.
  revert allData data. induction fuel as [|fuel IH]; intros allData data Hlen;
    [lia|].
  destruct data as [|d data]; simpl.
  - by rewrite app_nil_r.
  - unfold bind. simpl in *. rewrite IH by lia. by rewrite app_assoc.
Qed.

Lemma Start_running w :
  running (collector w) = true → Start w = Return tt w.
Proof. intros H. unfold Start. by rewrite H. Qed.

Lemma Start_stopped w :
  running (collector w) = false →
  Start w =
  Return tt
    {| collector := set_started (Inc (started (collector w)))
                      (set_running true (collector w));
       profileRate := cpuProfileRate;
       profileData := profileData w |}.
Proof. intros H. unfold Start. rewrite H. reflexivity. Qed.

Lemma Stop_stopped w :
  running (collector w) = false → Stop w = Return tt w.
Proof. intros H. unfold Stop. by rewrite H. Qed.

Lemma Stop_running w :
  running (collector w) = true →
  Stop w =
  Return tt
    {| collector := set_stopped (Inc (stopped (collector w)))
                      (set_running false (collector w));
       profileRate := 0;
       profileData := profileData w |}.
Proof. intros H. unfold Stop. rewrite H. reflexivity. Qed.

(** A scrape of a stopped collector publishes and changes nothing. *)
Lemma Collect_not_running w :
  running (collector w) = false →
  Collect Parse w = Return (publish (collector w)) w.
Proof. intros H. unfold Collect, bind, ret. rewrite H. simpl. by rewrite H. Qed.

(** A scrape of a running collector. *)
Lemma Collect_running w :
  running (collector w) = true →
  Collect Parse w =
  match Parse (concat (profileData w)) with
  | ParseErr _ => Panic (drained (collector w))
  | ParseOk p =>
      match
        forEach (PSample p)
          (processSample (mapLocations (PLocation p) (symbols (collector w))))
          (collector w)
      with
      | Return _ c' => Return (publish c') (resumed c')
      | Panic c' => Panic (drained c')
      end
  end.
Proof.
  intros Hrun. unfold Collect, bind at 1 2. rewrite Hrun.
  unfold drainAndAggregate, bind at 1 2, SetCPUProfileRate at 1.
  cbn [profileData]. rewrite readProfile_all by lia. cbn [app].
  destruct (Parse _) as [p|err]; [|done].
  unfold onCollector, zoom. cbn [collector].
  pose proof (aggregate_lifecycle
    (mapLocations (PLocation p) (symbols (collector w))) (PSample p)
    (collector w)) as (Hr & _).
  destruct (forEach _ _ _) as [[] c'|c']; simpl in Hr; [|done].
  unfold bind, ret. cbn [set_collector collector]. by rewrite Hr, Hrun.
Qed.

End Lifecycle.

(** ** Properties of the resolver *)

(** C2. For every location and every symbol table, the scan goes through
    the symbols in table order and gives the location the name of the
    first symbol whose range contains its address, both bounds of the
    range being inclusive ([Addr ≤ address ≤ Addr + Size], the sum taken
    in [uint64] as the source takes it). What follows that symbol in the
    table ([post]) plays no part. With IDs that identify addresses the
    returned map holds that name under the location's ID. The test the
    source evaluates is this range test, and for a symbol that ends
    below [2^64] the upper bound is the plain sum. *)
Theorem mapLocations_first_match (l : Location) (symbols pre post : list Sym)
    (s : Sym) :
  symbols = pre ++ s :: post →
  Forall (λ s', ¬ (Addr s' ≤ Address l ≤ uint64 (Addr s' + uint64 (Size s'))))
    pre →
  Addr s ≤ Address l ≤ uint64 (Addr s + uint64 (Size s)) →
  (∀ result, scanSymbols l symbols result = <[ID l := Name s]> result) ∧
  (∀ locations,
     l ∈ locations →
     (∀ l', l' ∈ locations → ID l' = ID l → Address l' = Address l) →
     mapLocations locations symbols !! ID l = Some (Name s)) ∧
  (∀ s' address,
     inRange s' address = true ↔
     Addr s' ≤ address ≤ uint64 (Addr s' + uint64 (Size s'))) ∧
  (∀ s', 0 ≤ Addr s' → 0 ≤ Size s' → Addr s' + Size s' < 2 ^ 64 →
         uint64 (Addr s' + uint64 (Size s')) = Addr s' + Size s').
Proof.
  intros Hsplit Hpre Hs.
  assert (firstSymbol symbols (Address l) = Some s) as Hfirst
    by (by eapply firstSymbol_split).
  split_and!.
  - intros result. by rewrite scanSymbols_firstSymbol, Hfirst.
  - intros locations Hl Hids.
    by rewrite mapLocations_lookup, Hfirst.
  - apply inRange_contains.
  - apply uint64_no_wrap.
Qed.

(** At address 120 the table [h; f; wide] has [f] as its first hit, and
    [wide], which contains 120 as well, comes too late. *)
Lemma mapLocations_first_match_witness :
  scanSymbols Scenario.at120 [Scenario.h; Scenario.f; Scenario.wide] ∅ =
    <[1 := "f"]> ∅ ∧
  mapLocations [Scenario.at120; Scenario.at500]
    [Scenario.h; Scenario.f; Scenario.wide] !! 1 = Some "f".
Proof.
  destruct (mapLocations_first_match Scenario.at120
              [Scenario.h; Scenario.f; Scenario.wide]
              [Scenario.h] [Scenario.wide] Scenario.f)
    as (Hscan & Hmap & _).
  - reflexivity.
  - constructor; [|constructor].
    apply (proj1 (inRange_not_contains Scenario.h 120)). reflexivity.
  - apply (proj1 (inRange_contains Scenario.f 120)). reflexivity.
  - split; [apply Hscan|]. apply Hmap.
    + apply list_elem_of_here.
    + intros l' Hl'. apply elem_of_cons in Hl' as [->|Hl']; [done|].
      apply list_elem_of_singleton in Hl' as ->. simpl. discriminate.
Defined.

(** C9, as the table really is. Two functions laid out one after the
    other share the boundary address under the inclusive test: 150 lies
    in the range of [f] and in the range of [g]. The collector takes the
    table as it comes and resolves 150 to [f]. *)
Lemma adjacent_ranges_overlap :
  symbols (NewCPUProfileCollector (FL := ieee_float64) Scenario.adjacentSymbols)
    = Scenario.adjacentSymbols ∧
  inRange Scenario.f 150 = true ∧ inRange Scenario.g 150 = true ∧
  ¬ disjointRanges Scenario.adjacentSymbols ∧
  mapLocations [Scenario.at150] Scenario.adjacentSymbols !! 3 = Some "f".
Proof.
  split_and!; try reflexivity.
  intros Hdis.
  assert (0 = 1)%nat as Hij; [|discriminate Hij].
  apply (Hdis 150 0%nat 1%nat Scenario.f Scenario.g); try reflexivity.
  - by apply inRange_contains.
  - by apply inRange_contains.
Qed.

(** C9, amended. An address may lie in the ranges of several symbols of
    the table; the scan still settles on at most one of them: either no
    symbol contains the address and the map is left as it was, or the
    scan stores the name of the symbol at the first position [i] whose
    range contains the address, and every symbol whose range contains
    the address stands at position [i] or later. On a table whose ranges
    are disjoint that symbol is the only one containing the address. *)
Theorem scanSymbols_selects_first (l : Location) (symbols : list Sym)
    (result : gmap Z string) :
  (Forall (λ s, ¬ contains s (Address l)) symbols ∧
   scanSymbols l symbols result = result) ∨
  (∃ (i : nat) s,
     symbols !! i = Some s ∧ contains s (Address l) ∧
     scanSymbols l symbols result = <[ID l := Name s]> result ∧
     (∀ (j : nat) s', symbols !! j = Some s' → contains s' (Address l) →
        (i ≤ j)%nat) ∧
     (disjointRanges symbols →
      ∀ (j : nat) s', symbols !! j = Some s' → contains s' (Address l) →
        j = i)).
Proof.
  destruct (firstSymbol symbols (Address l)) as [s|] eqn:E.
  - right. destruct (firstSymbol_position _ _ _ E) as (i & Hi & Hs & Hfirst).
    exists i, s. split_and!; try done.
    + by rewrite scanSymbols_firstSymbol, E.
    + intros Hdis j s' Hj Hs'. by apply (Hdis (Address l) j i s' s).
  - left. split; [by apply firstSymbol_None|].
    by rewrite scanSymbols_firstSymbol, E.
Qed.

(** On the adjacent table the scan for 150 settles on position 0. *)
Lemma scanSymbols_selects_first_witness :
  scanSymbols Scenario.at150 Scenario.adjacentSymbols ∅ = <[3 := "f"]> ∅.
Proof.
  destruct (scanSymbols_selects_first Scenario.at150
              Scenario.adjacentSymbols ∅)
    as [[Hnone _]|(i & s & Hi & _ & Hscan & Hfirst & _)].
  - exfalso. apply Forall_cons_1 in Hnone as [Hf _]. apply Hf.
    by apply inRange_contains.
  - assert (i = 0)%nat as ->.
    { assert (i ≤ 0)%nat; [|lia].
      apply (Hfirst 0%nat Scenario.f); [done|by apply inRange_contains]. }
    injection Hi as <-. exact Hscan.
Defined.

(** ** Properties of the aggregator *)

(** C1, as the code really is. A sample with a stack of one frame in [f]
    and two values, the second below zero: the first [Add] panics. The
    self-time counter of [f] has been created and stands at zero, it has
    not had the amount of -1 ms added, and [f] has no cumulative
    counter. *)
Lemma negative_sample_not_credited :
  let FL := ieee_float64 in
  let locations :=
    mapLocations (PLocation Scenario.profile) Scenario.adjacentSymbols in
  let s := {| SLocation := [Scenario.at120]; Value := [1; -1000000] |} in
  let c := NewCPUProfileCollector Scenario.adjacentSymbols in
  SLocation s ≠ [] ∧ (2 ≤ length (Value s))%nat ∧
  frameName locations Scenario.at120 = "f" ∧
  returned (processSample locations s c) = false ∧
  timeUsed (finalState (processSample locations s c)) !! "f"
    = Some 0%float ∧
  timeUsedCum (finalState (processSample locations s c)) !! "f" = None ∧
  ¬ ∃ c', processSample locations s c = Return tt c' ∧
          timeUsed c' !! "f" =
            Some (f_add (default f_zero (timeUsed c !! "f"))
                    (nanosToMillis (-1000000))).
Proof.
  intros FL locations s c.
  assert (returned (processSample locations s c) = false) as Hpanic
    by (vm_compute; reflexivity).
  split; [discriminate|].
  split; [simpl; lia|].
  split; [vm_compute; reflexivity|].
  split; [exact Hpanic|].
  split; [vm_compute; reflexivity|].
  split; [vm_compute; reflexivity|].
  intros (c' & Hrun & _). rewrite Hrun in Hpanic. discriminate Hpanic.
Qed.

(** C1, amended. A sample with a non-empty stack and at least two values, whose
    amount [float64(Value[1]) / 1000000] is not below zero, adds that
    amount to the self-time counter of the function of the leaf
    [Location[0]], leaves every other self-time counter alone, and adds
    it to the cumulative counter of a function once for each occurrence
    of the function in the stack (a function that does not occur keeps
    its counter). A sample with an empty stack or fewer than two values
    changes nothing. A scrape of a running collector processes in this
    way, one after the other, the samples of the profile decoded from the
    drained bytes, the functions being resolved by [mapLocations] over
    the profile's locations. *)
Theorem processSample_accounting {FL : Float64} (locations : gmap Z string)
    (s : Sample) (c : cpuProfileCollector) :
  (∀ (l0 : Location) (v1 : Z),
     SLocation s !! 0%nat = Some l0 → Value s !! 1%nat = Some v1 →
     f_ltb (nanosToMillis v1) f_zero = false →
     ∃ c',
       processSample locations s c = Return tt c' ∧
       timeUsed c' !! frameName locations l0 =
         Some (f_add (default f_zero (timeUsed c !! frameName locations l0))
                 (nanosToMillis v1)) ∧
       (∀ function, function ≠ frameName locations l0 →
          timeUsed c' !! function = timeUsed c !! function) ∧
       (∀ function,
          timeUsedCum c' !! function =
          match occurrences locations (SLocation s) function with
          | O => timeUsedCum c !! function
          | S k => Some (credits (S k) (nanosToMillis v1)
                           (default f_zero (timeUsedCum c !! function)))
          end) ∧
       sameLifecycle c c') ∧
  (SLocation s = [] ∨ (length (Value s) < 2)%nat →
   processSample locations s c = Return tt c) ∧
  (∀ (Parse : bytes → ParseResult) (w : World) (p : Profile),
     running (collector w) = true →
     Parse (concat (profileData w)) = ParseOk p →
     Collect Parse w =
     match
       forEach (PSample p)
         (processSample (mapLocations (PLocation p) (symbols (collector w))))
         (collector w)
     with
     | Return _ c' => Return (publish c') (resumed c')
     | Panic c' => Panic (drained c')
     end).
Proof.
  split_and!.
  - intros l0 v1 Hl0 Hv1 Hv. eexists. split.
    + by apply processSample_valid.
    + split_and!; simpl.
      * apply credit_lookup.
      * intros function Hne. by apply credit_lookup_ne.
      * intros function. apply fold_credit_lookup.
      * done.
  - apply processSample_skip.
  - intros Parse w p Hrun Hp. by rewrite Collect_running, Hp.
Qed.

(** The recursive stack of 0.3 s, both frames in [f], on a fresh
    collector: 300 ms of self time and 600 ms of cumulative time for
    [f]; the sample with one value changes nothing. *)
Lemma processSample_accounting_witness :
  let FL := ieee_float64 in
  let locations :=
    mapLocations (PLocation Scenario.profile) Scenario.adjacentSymbols in
  let c := NewCPUProfileCollector Scenario.adjacentSymbols in
  (∃ c', processSample locations Scenario.recursive c = Return tt c' ∧
         timeUsed c' !! "f" = Some 300%float ∧
         timeUsedCum c' !! "f" = Some 600%float) ∧
  processSample locations Scenario.short c = Return tt c.
Proof.
  intros FL locations c.
  destruct (processSample_accounting locations Scenario.recursive c)
    as [Hvalid _].
  destruct (Hvalid Scenario.at120 300000000)
    as (c' & Hrun & Hself & _ & Hcum & _); [reflexivity..|].
  destruct (processSample_accounting locations Scenario.short c)
    as (_ & Hskip & _).
  split; [|apply Hskip; right; simpl; lia].
  exists c'. split_and!; [exact Hrun|exact Hself|exact (Hcum "f")].
Defined.

(** C3, as the code really is. Two locations share ID 1, one at 500
    outside every symbol and one at 120 inside [f]: the location at 500
    resolves to [f] and not to the empty string. And a sample whose only
    frame is the location at 500 with ID 4, which does resolve to the
    empty string, with a second value below zero makes the aggregation
    panic. *)
Lemma unknown_function_not_always_counted :
  let FL := ieee_float64 in
  let shared := {| ID := 1; Address := 500 |} in
  Forall (λ sy, ¬ contains sy (Address shared)) [Scenario.f] ∧
  frameName (mapLocations [shared; Scenario.at120] [Scenario.f]) shared
    = "f" ∧
  Forall (λ sy, ¬ contains sy (Address Scenario.at500)) [Scenario.f] ∧
  frameName (mapLocations [Scenario.at500] [Scenario.f]) Scenario.at500
    = "" ∧
  returned
    (processSample (mapLocations [Scenario.at500] [Scenario.f])
       {| SLocation := [Scenario.at500]; Value := [1; -500000000] |}
       (NewCPUProfileCollector [Scenario.f])) = false.
Proof.
  intros FL shared.
  assert (Forall (λ sy, ¬ contains sy 500) [Scenario.f]) as Hout.
  { constructor; [|constructor].
    apply (proj1 (inRange_not_contains Scenario.f 500)). reflexivity. }
  split; [exact Hout|].
  split; [vm_compute; reflexivity|].
  split; [exact Hout|].
  split; vm_compute; reflexivity.
Qed.

(** C3, amended. A location whose address no symbol's range contains resolves to
    the empty string (its ID being the ID of no location with another
    address), and a sample with such a frame, of an amount not below
    zero, is processed without a panic and credits the full amount to
    the empty-string label: to the cumulative counter once for each of
    its frames that resolves to the empty string, of which there is at
    least one, and to the self-time counter when the frame is the leaf. *)
Theorem unknown_function_counted {FL : Float64} (plocations : list Location)
    (symbols : list Sym) (l : Location) :
  Forall (λ sy, ¬ contains sy (Address l)) symbols →
  (∀ l', l' ∈ plocations → ID l' = ID l → Address l' = Address l) →
  frameName (mapLocations plocations symbols) l = "" ∧
  ∀ (s : Sample) (c : cpuProfileCollector) (v1 : Z),
    l ∈ SLocation s → Value s !! 1%nat = Some v1 →
    f_ltb (nanosToMillis v1) f_zero = false →
    ∃ c' k,
      processSample (mapLocations plocations symbols) s c = Return tt c' ∧
      occurrences (mapLocations plocations symbols) (SLocation s) "" = S k ∧
      timeUsedCum c' !! "" =
        Some (credits (S k) (nanosToMillis v1)
                (default f_zero (timeUsedCum c !! ""))) ∧
      (SLocation s !! 0%nat = Some l →
       timeUsed c' !! "" =
         Some (f_add (default f_zero (timeUsed c !! "")) (nanosToMillis v1))).
Proof.
  intros Hnone Hids.
  assert (mapLocations plocations symbols !! ID l = None) as Hmiss.
  { destruct (mapLocations plocations symbols !! ID l) as [name|] eqn:E;
      [exfalso|done].
    assert (is_Some (mapLocations plocations symbols !! ID l)) as Hsome
      by (by eexists).
    apply mapLocations_is_Some in Hsome as (l' & Hl' & Hid & Hhit).
    rewrite (Hids l' Hl' Hid) in Hhit.
    apply firstSymbol_None in Hnone. rewrite Hnone in Hhit.
    by destruct Hhit. }
  assert (frameName (mapLocations plocations symbols) l = "") as Hname.
  { unfold frameName, mapIndex. by rewrite Hmiss. }
  split; [done|].
  intros s c v1 Hin Hv1 Hv.
  assert (∃ l0, SLocation s !! 0%nat = Some l0) as [l0 Hl0].
  { destruct (SLocation s) as [|l0 stack];
      [by apply elem_of_nil in Hin|by exists l0]. }
  assert (∃ k, occurrences (mapLocations plocations symbols)
                 (SLocation s) "" = S k) as [k Hk].
  { unfold occurrences.
    assert (l ∈ filter (λ l', frameName (mapLocations plocations symbols) l'
                               = "") (SLocation s)) as Hl
      by (by apply list_elem_of_filter).
    destruct (filter _ _) as [|x xs]; [by apply elem_of_nil in Hl|].
    by exists (length xs). }
  eexists _, k. split; [by apply (processSample_valid _ _ _ l0 v1)|].
  split_and!; [done| |].
  - cbn [timeUsedCum set_timeUsedCum]. by rewrite fold_credit_lookup, Hk.
  - rewrite Hl0. intros [= ->].
    cbn [timeUsed set_timeUsed set_timeUsedCum]. rewrite Hname.
    apply credit_lookup.
Qed.

(** The sample of 0.5 s whose leaf is at 500, outside [f] and [g]: 500 ms
    of self time under the empty string. *)
Lemma unknown_function_counted_witness :
  let FL := ieee_float64 in
  let locations :=
    mapLocations (PLocation Scenario.profile) Scenario.adjacentSymbols in
  frameName locations Scenario.at500 = "" ∧
  ∃ c', processSample locations Scenario.outside
          (NewCPUProfileCollector Scenario.adjacentSymbols) = Return tt c' ∧
        timeUsed c' !! "" = Some 500%float ∧
        timeUsedCum c' !! "" = Some 500%float.
Proof.
  intros FL locations.
  destruct (unknown_function_counted (FL := FL) (PLocation Scenario.profile)
              Scenario.adjacentSymbols Scenario.at500) as [Hname Hcount].
  - repeat constructor.
    + apply (proj1 (inRange_not_contains Scenario.f 500)). reflexivity.
    + apply (proj1 (inRange_not_contains Scenario.g 500)). reflexivity.
  - intros l' Hl' Hid. simpl in Hl'.
    repeat (apply elem_of_cons in Hl' as [->|Hl'];
            [first [discriminate Hid | reflexivity]|]).
    by apply elem_of_nil in Hl'.
  - split; [exact Hname|].
    destruct (Hcount Scenario.outside
                (NewCPUProfileCollector Scenario.adjacentSymbols) 500000000)
      as (c' & k & Hrun & Hk & Hcum & Hself).
    + apply list_elem_of_here.
    + reflexivity.
    + reflexivity.
    + exists c'. split_and!; [exact Hrun|exact (Hself eq_refl)|].
      assert (k = 0%nat) as -> by (vm_compute in Hk; congruence).
      exact Hcum.
Defined.

(** C10. The map that [mapLocations] returns has an entry exactly under
    the IDs of the locations whose address lies in the range of some
    symbol; the scan for a location whose address lies in no range
    stores nothing; reading the map at an ID without an entry yields the
    empty string, and that is the label under which the aggregation then
    credits a leaf with such an ID. *)
Theorem mapLocations_entries {FL : Float64} (locations : list Location)
    (symbols : list Sym) :
  (∀ id, is_Some (mapLocations locations symbols !! id) ↔
         ∃ l, l ∈ locations ∧ ID l = id ∧
              ∃ s, s ∈ symbols ∧ contains s (Address l)) ∧
  (∀ l result, Forall (λ s, ¬ contains s (Address l)) symbols →
               scanSymbols l symbols result = result) ∧
  (∀ id, mapLocations locations symbols !! id = None →
         mapIndex (mapLocations locations symbols) id = "") ∧
  (∀ (s : Sample) (c : cpuProfileCollector) (l0 : Location) (v1 : Z),
     SLocation s !! 0%nat = Some l0 → Value s !! 1%nat = Some v1 →
     f_ltb (nanosToMillis v1) f_zero = false →
     mapLocations locations symbols !! ID l0 = None →
     ∃ c', processSample (mapLocations locations symbols) s c = Return tt c' ∧
           timeUsed c' !! "" =
             Some (f_add (default f_zero (timeUsed c !! ""))
                     (nanosToMillis v1))).
Proof.
  split_and!.
  - intros id. rewrite mapLocations_is_Some.
    by setoid_rewrite firstSymbol_is_Some.
  - intros l result Hnone. apply firstSymbol_None in Hnone.
    by rewrite scanSymbols_firstSymbol, Hnone.
  - intros id Hid. unfold mapIndex. by rewrite Hid.
  - intros s c l0 v1 Hl0 Hv1 Hv Hmiss.
    eexists. split; [by apply (processSample_valid _ _ _ l0 v1)|].
    cbn [timeUsed set_timeUsed set_timeUsedCum].
    unfold frameName, mapIndex. rewrite Hmiss. apply credit_lookup.
Qed.

(** Of the three locations of the scenario the map has entries for the
    two inside [f] and none for the one at 500. *)
Lemma mapLocations_entries_witness :
  is_Some (mapLocations (PLocation Scenario.profile)
             Scenario.adjacentSymbols !! 1) ∧
  scanSymbols Scenario.at500 Scenario.adjacentSymbols ∅ = ∅ ∧
  mapIndex (mapLocations (PLocation Scenario.profile)
              Scenario.adjacentSymbols) 4 = "".
Proof.
  destruct (mapLocations_entries (FL := ieee_float64)
              (PLocation Scenario.profile) Scenario.adjacentSymbols)
    as (Hdom & Hscan & Hread & _).
  split_and!.
  - apply Hdom. exists Scenario.at120. split_and!.
    + apply list_elem_of_here.
    + reflexivity.
    + exists Scenario.f. split; [apply list_elem_of_here|].
      apply (proj1 (inRange_contains Scenario.f 120)). reflexivity.
  - apply Hscan. repeat constructor.
    + apply (proj1 (inRange_not_contains Scenario.f 500)). reflexivity.
    + apply (proj1 (inRange_not_contains Scenario.g 500)). reflexivity.
  - apply Hread. reflexivity.
Defined.

(** ** Properties of the life cycle *)

(** C4. A scrape of a stopped collector returns the metrics of the four
    families and leaves the whole state as it was: the two time-counter
    maps, the event counters, the profiler's rate and the buffered
    profile data (nothing is drained). The decoder plays no part in it.
    What is published is every child of the two time counters, under its
    function label, and the two event counters. *)
Theorem Collect_stopped {FL : Float64} (Parse : bytes → ParseResult)
    (w : World) :
  running (collector w) = false →
  Collect Parse w = Return (publish (collector w)) w ∧
  (∀ Parse', Collect Parse' w = Collect Parse w) ∧
  (∀ function x, timeUsed (collector w) !! function = Some x →
     {| fqName := "pprof_cpu_time_used_ms";
        labels := [("function", function)];
        value := FloatValue x |} ∈ publish (collector w)) ∧
  (∀ function x, timeUsedCum (collector w) !! function = Some x →
     {| fqName := "pprof_cpu_time_used_cum_ms";
        labels := [("function", function)];
        value := FloatValue x |} ∈ publish (collector w)) ∧
  {| fqName := "pprof_cpu_started"; labels := [];
     value := CountValue (started (collector w)) |} ∈ publish (collector w) ∧
  {| fqName := "pprof_cpu_stopped"; labels := [];
     value := CountValue (stopped (collector w)) |} ∈ publish (collector w).
Proof.
  intros Hstopped. split_and!.
  - by apply Collect_not_running.
  - intros Parse'. by rewrite !Collect_not_running.
  - intros function x Hx. unfold publish. apply elem_of_app. left.
    unfold CounterVec_Collect. apply list_elem_of_fmap.
    exists (function, x). split; [done|]. by apply elem_of_map_to_list.
  - intros function x Hx. unfold publish.
    apply elem_of_app. right. apply elem_of_app. left.
    unfold CounterVec_Collect. apply list_elem_of_fmap.
    exists (function, x). split; [done|]. by apply elem_of_map_to_list.
  - unfold publish. do 2 (apply elem_of_app; right).
    apply elem_of_app. left. apply list_elem_of_here.
  - unfold publish. do 3 (apply elem_of_app; right). apply list_elem_of_here.
Qed.

(** A fresh collector with buffered data that no decoder accepts: the
    scrape returns the two event counters and the data stays buffered. *)
Lemma Collect_stopped_witness :
  let FL := ieee_float64 in
  let w := {| collector := NewCPUProfileCollector Scenario.adjacentSymbols;
              profileRate := 0; profileData := [[]] |} in
  Collect Scenario.malformed w = Return (publish (collector w)) w.
Proof.
  intros FL w.
  apply (Collect_stopped (FL := FL) Scenario.malformed w). reflexivity.
Defined.

(** C5. [Start] on a running collector changes nothing. [Start] on a
    stopped collector sets the profiler's rate to [cpuProfileRate], sets
    [running] and adds one to [started], and nothing else. [Stop] is the
    mirror image: nothing on a stopped collector; rate 0, [running]
    cleared and one added to [stopped] on a running one. So two [Start]s
    and a [Stop] on a stopped collector add exactly one to each event
    counter, which on a fresh collector gives 1 and 1, and two [Stop]s
    on a running collector add exactly one to [stopped]. *)
Theorem Start_Stop_idempotent {FL : Float64} (Parse : bytes → ParseResult)
    (w : World) :
  (running (collector w) = true → Start w = Return tt w) ∧
  (running (collector w) = false →
   ∃ w', Start w = Return tt w' ∧
         profileRate w' = cpuProfileRate ∧
         running (collector w') = true ∧
         started (collector w') = (started (collector w) + 1)%N ∧
         stopped (collector w') = stopped (collector w) ∧
         timeUsed (collector w') = timeUsed (collector w) ∧
         timeUsedCum (collector w') = timeUsedCum (collector w) ∧
         symbols (collector w') = symbols (collector w) ∧
         profileData w' = profileData w) ∧
  (running (collector w) = false → Stop w = Return tt w) ∧
  (running (collector w) = true →
   ∃ w', Stop w = Return tt w' ∧
         profileRate w' = 0 ∧
         running (collector w') = false ∧
         stopped (collector w') = (stopped (collector w) + 1)%N ∧
         started (collector w') = started (collector w) ∧
         timeUsed (collector w') = timeUsed (collector w) ∧
         timeUsedCum (collector w') = timeUsedCum (collector w) ∧
         symbols (collector w') = symbols (collector w) ∧
         profileData w' = profileData w) ∧
  (running (collector w) = false →
   ∃ w', run Parse [OpStart; OpStart; OpStop] w = Return [] w' ∧
         running (collector w') = false ∧
         started (collector w') = (started (collector w) + 1)%N ∧
         stopped (collector w') = (stopped (collector w) + 1)%N) ∧
  (running (collector w) = true →
   ∃ w', run Parse [OpStop; OpStop] w = Return [] w' ∧
         running (collector w') = false ∧
         started (collector w') = started (collector w) ∧
         stopped (collector w') = (stopped (collector w) + 1)%N) ∧
  (∀ symbols,
   ∃ w', run Parse [OpStart; OpStart; OpStop] (newWorld symbols)
           = Return [] w' ∧
         started (collector w') = 1%N ∧ stopped (collector w') = 1%N).
Proof.
  split_and!.
  - apply Start_running.
  - intros Hstopped. eexists. split; [by apply Start_stopped|]. done.
  - apply Stop_stopped.
  - intros Hrunning. eexists. split; [by apply Stop_running|]. done.
  - intros Hstopped. eexists. split.
    + simpl. unfold bind, ret.
      rewrite (Start_stopped w Hstopped).
      rewrite Start_running by done.
      rewrite Stop_running by done. reflexivity.
    + done.
  - intros Hrunning. eexists. split.
    + simpl. unfold bind, ret.
      rewrite (Stop_running w Hrunning).
      rewrite Stop_stopped by done. reflexivity.
    + done.
  - intros symbols. eexists. split; [reflexivity|]. done.
Qed.

(** On the fresh collector of the scenario: two [Start]s and a [Stop]
    count one start and one stop. *)
Lemma Start_Stop_idempotent_witness :
  let FL := ieee_float64 in
  ∃ w', run Scenario.decodes [OpStart; OpStart; OpStop]
          (newWorld Scenario.adjacentSymbols) = Return [] w' ∧
        running (collector w') = false ∧
        started (collector w') = 1%N ∧ stopped (collector w') = 1%N.
Proof.
  intros FL.
  destruct (Start_Stop_idempotent (FL := FL) Scenario.decodes
              (newWorld Scenario.adjacentSymbols))
    as (_ & _ & _ & _ & Hrun & _).
  destruct (Hrun eq_refl) as (w' & Hw' & Hr & Hstarted & Hstopped).
  exists w'. split_and!; [exact Hw'|exact Hr|exact Hstarted|exact Hstopped].
Defined.

(** C7. When the decoder rejects the drained bytes in a scrape of a
    running collector, the scrape panics, nothing is published, and at
    the abort the collector is what it was before the scrape: the two
    time-counter maps, [started] and [stopped] are unchanged, so no
    resolution and no aggregation has taken place. The profiler's rate
    is 0 and the buffer is empty at that point. *)
Theorem Collect_decode_failure {FL : Float64} (Parse : bytes → ParseResult)
    (w : World) (err : string) :
  running (collector w) = true →
  Parse (concat (profileData w)) = ParseErr err →
  ∃ w', Collect Parse w = Panic w' ∧
        collector w' = collector w ∧
        timeUsed (collector w') = timeUsed (collector w) ∧
        timeUsedCum (collector w') = timeUsedCum (collector w) ∧
        started (collector w') = started (collector w) ∧
        stopped (collector w') = stopped (collector w) ∧
        profileRate w' = 0 ∧ profileData w' = [].
Proof.
  intros Hrunning Herr. exists (drained (collector w)). split; [|done].
  by rewrite Collect_running, Herr.
Qed.

(** A started collector whose buffered data no decoder accepts. *)
Lemma Collect_decode_failure_witness :
  let FL := ieee_float64 in
  let w := {| collector :=
                set_running true (NewCPUProfileCollector Scenario.adjacentSymbols);
              profileRate := cpuProfileRate; profileData := [[]] |} in
  ∃ w', Collect Scenario.malformed w = Panic w' ∧ collector w' = collector w.
Proof.
  intros FL w.
  destruct (Collect_decode_failure (FL := FL) Scenario.malformed w "malformed")
    as (w' & Hw' & Hc & _); [reflexivity..|].
  exists w'. split; [exact Hw'|exact Hc].
Defined.

(** ** Rounding in binary64

    Adding a value that is not NaN and not below zero to a value of that
    kind gives a value of that kind that is not smaller: [SFadd_good] on
    [SpecFloat], [float_add_good] on the primitive floats. *)

(** The number of binary digits of a mantissa. *)
Lemma digits2_pos_log2 (m : positive) :
  Zpos (digits2_pos m) = Z.log2 (Zpos m) + 1.
Proof.
  induction m as [m IH|m IH|]; simpl; [| |reflexivity].
  - rewrite Pos2Z.inj_succ, IH. destruct m; simpl; lia.
  - rewrite Pos2Z.inj_succ, IH. destruct m; simpl; lia.
Qed.

Lemma digits2_pos_bounds (m : positive) :
  2 ^ (Zpos (digits2_pos m) - 1) ≤ Zpos m < 2 ^ Zpos (digits2_pos m).
Proof.
  rewrite digits2_pos_log2.
  replace (Z.log2 (Zpos m) + 1 - 1) with (Z.log2 (Zpos m)) by lia.
  replace (Z.log2 (Zpos m) + 1) with (Z.succ (Z.log2 (Zpos m))) by lia.
  apply Z.log2_spec. lia.
Qed.

Lemma digits2_pos_le (m n : positive) (d : Z) :
  0 ≤ d → Zpos m * 2 ^ d ≤ Zpos n →
  Zpos (digits2_pos m) + d ≤ Zpos (digits2_pos n).
Proof.
  intros Hd Hle. rewrite !digits2_pos_log2.
  assert (Z.log2 (Zpos m * 2 ^ d) ≤ Z.log2 (Zpos n)) as H
    by (apply Z.log2_le_mono; exact Hle).
  rewrite Z.log2_mul_pow2 in H by lia. lia.
Qed.

(** Shifting a mantissa to the right. *)
Lemma shr_1_m (mrs : shr_record) :
  0 ≤ shr_m mrs → shr_m (shr_1 mrs) = shr_m mrs / 2.
Proof.
  destruct mrs as [m r s]. simpl. intros Hm.
  rewrite <- Z.div2_div.
  destruct m as [|[p|p|]|p]; simpl; try reflexivity; lia.
Qed.

Lemma iter_pos_shr_1 (p : positive) (mrs : shr_record) :
  0 ≤ shr_m mrs →
  shr_m (SpecFloat.iter_pos shr_1 p mrs) = shr_m mrs / 2 ^ Zpos p.
Proof.
  revert mrs. induction p as [p IH|p IH|]; intros mrs Hm;
    simpl SpecFloat.iter_pos.
  - assert (0 < 2 ^ Zpos p) as HP by (apply Z.pow_pos_nonneg; lia).
    assert (2 ^ Zpos p~1 = 2 * 2 ^ Zpos p * 2 ^ Zpos p) as Hpow.
    { rewrite (Pos2Z.inj_xI p).
      replace (2 * Zpos p + 1) with (1 + Zpos p + Zpos p) by lia.
      rewrite !Z.pow_add_r by lia. reflexivity. }
    assert (0 ≤ shr_m (shr_1 mrs)) as H1
      by (rewrite shr_1_m by exact Hm; apply Z.div_pos; lia).
    assert (0 ≤ shr_m (SpecFloat.iter_pos shr_1 p (shr_1 mrs))) as H2
      by (rewrite IH by exact H1; apply Z.div_pos; [exact H1|lia]).
    rewrite IH by exact H2. rewrite IH by exact H1. rewrite shr_1_m by exact Hm.
    rewrite Hpow. rewrite !Z.div_div by lia. f_equal. lia.
  - assert (0 < 2 ^ Zpos p) as HP by (apply Z.pow_pos_nonneg; lia).
    assert (2 ^ Zpos p~0 = 2 ^ Zpos p * 2 ^ Zpos p) as Hpow.
    { rewrite (Pos2Z.inj_xO p). apply Z.pow_twice_r. }
    assert (0 ≤ shr_m (SpecFloat.iter_pos shr_1 p mrs)) as H2
      by (rewrite IH by exact Hm; apply Z.div_pos; [exact Hm|lia]).
    rewrite IH by exact H2. rewrite IH by exact Hm.
    rewrite Hpow. rewrite Z.div_div by lia. reflexivity.
  - apply shr_1_m. exact Hm.
Qed.

Lemma shr_spec (mrs : shr_record) (e n : Z) :
  0 ≤ shr_m mrs →
  shr_m (fst (shr mrs e n)) = shr_m mrs / 2 ^ Z.max n 0 ∧
  snd (shr mrs e n) = e + Z.max n 0.
Proof.
  intros Hm. destruct n as [|p|p]; simpl.
  - rewrite Z.div_1_r. lia.
  - rewrite iter_pos_shr_1 by exact Hm. split; [reflexivity|lia].
  - rewrite Z.div_1_r. lia.
Qed.

Lemma shr_record_of_loc_m (m : Z) (l : location) :
  shr_m (shr_record_of_loc m l) = m.
Proof. destruct l as [|[]]; reflexivity. Qed.

Lemma shr_fexp_spec (m e : Z) (l : location) :
  0 ≤ m →
  let k := Z.max (fexp prec emax (Zdigits2 m + e) - e) 0 in
  shr_m (fst (shr_fexp prec emax m e l)) = m / 2 ^ k ∧
  snd (shr_fexp prec emax m e l) = e + k.
Proof.
  intros Hm k. unfold shr_fexp.
  pose proof (shr_spec (shr_record_of_loc m l) e
               (fexp prec emax (Zdigits2 m + e) - e)) as H.
  rewrite shr_record_of_loc_m in H. apply H. exact Hm.
Qed.

Lemma round_nearest_even_bounds (m : Z) (l : location) :
  m ≤ round_nearest_even m l ≤ m + 1.
Proof.
  unfold round_nearest_even. destruct l as [|[]]; try lia.
  destruct (Z.even m); lia.
Qed.

Lemma binary_round_aux_spec (sx : bool) (m e : Z) (l : location) :
  0 ≤ m →
  ∃ m1r,
    let k1 := Z.max (fexp prec emax (Zdigits2 m + e) - e) 0 in
    let e1 := e + k1 in
    let k2 := Z.max (fexp prec emax (Zdigits2 m1r + e1) - e1) 0 in
    m / 2 ^ k1 ≤ m1r ≤ m / 2 ^ k1 + 1 ∧
    binary_round_aux prec emax sx m e l = rounded sx (m1r / 2 ^ k2) (e1 + k2).
Proof.
  intros Hm. unfold binary_round_aux.
  destruct (shr_fexp_spec m e l Hm) as [Hm1 He1].
  destruct (shr_fexp prec emax m e l) as [mrs' e'] eqn:E1. simpl in Hm1, He1.
  set (m1r := round_nearest_even (shr_m mrs') (loc_of_shr_record mrs')).
  assert (shr_m mrs' ≤ m1r ≤ shr_m mrs' + 1) as Hr
    by apply round_nearest_even_bounds.
  assert (0 ≤ shr_m mrs') as Hm1pos.
  { rewrite Hm1. apply Z.div_pos; [exact Hm|]. apply Z.pow_pos_nonneg; lia. }
  assert (0 ≤ m1r) as Hm1r by lia.
  destruct (shr_fexp_spec m1r e' loc_Exact Hm1r) as [Hm2 He2].
  destruct (shr_fexp prec emax m1r e' loc_Exact) as [mrs'' e''] eqn:E2.
  simpl in Hm2, He2.
  exists m1r. simpl. rewrite <- He1, <- Hm1. split; [exact Hr|].
  rewrite <- Hm2, <- He2. reflexivity.
Qed.

Lemma binary_round_aux_signed (sx : bool) (m e : Z) (l : location) :
  0 ≤ m → SFsigned sx (binary_round_aux prec emax sx m e l).
Proof.
  intros Hm. destruct (binary_round_aux_spec sx m e l Hm) as (m1r & Hr & ->).
  assert (0 ≤ m / 2 ^ Z.max (fexp prec emax (Zdigits2 m + e) - e) 0) as H1.
  { apply Z.div_pos; [exact Hm|]. apply Z.pow_pos_nonneg; lia. }
  match goal with |- SFsigned _ (rounded _ (_ / ?b) ?e2) =>
    assert (0 ≤ m1r / b) as H2
      by (apply Z.div_pos; [lia|apply Z.pow_pos_nonneg; lia]);
    destruct (m1r / b) as [|p|p]; simpl; [reflexivity| |lia];
    destruct (e2 <=? emax - prec); reflexivity
  end.
Qed.

Lemma fexp_eq (x : Z) : fexp prec emax x = Z.max (x - 53) (-1074).
Proof. reflexivity. Qed.

Lemma pow2_le_div (a k : Z) :
  0 ≤ k → 2 ^ k ≤ a → 1 ≤ a / 2 ^ k.
Proof.
  intros Hk Ha. apply Z.div_le_lower_bound; [apply Z.pow_pos_nonneg; lia|lia].
Qed.

(** Rounding a value that is at least the canonical float [(mx, ex)]
    gives a result that is at least [(mx, ex)]. *)
Lemma binary_round_aux_ge (mx mz : positive) (ex ez : Z) (l : location) :
  fexp prec emax (Zpos (digits2_pos mx) + ex) = ex →
  ez ≤ ex →
  Zpos mx * 2 ^ (ex - ez) ≤ Zpos mz →
  SFleb (S754_finite false mx ex)
        (binary_round_aux prec emax false (Zpos mz) ez l) = true.
Proof.
  intros Hcanon Hez Hval.
  destruct (binary_round_aux_spec false (Zpos mz) ez l) as (m1r & Hr & ->);
    [lia|].
  rewrite !fexp_eq in *. simpl Zdigits2 in *.
  pose proof (digits2_pos_bounds mz) as [Hlo Hhi].
  pose proof (digits2_pos_le mx mz (ex - ez) ltac:(lia) Hval) as Hd.
  set (d := Zpos (digits2_pos mz)) in *.
  set (dx := Zpos (digits2_pos mx)) in *.
  set (k1 := Z.max (Z.max (d + ez - 53) (-1074) - ez) 0) in *.
  set (e1 := ez + k1) in *.
  assert (ex ≤ e1) as He1 by lia.
  (* the mantissa after the first shift *)
  assert (1 ≤ Zpos mz / 2 ^ k1 ∧ (e1 = ex → Zpos mx ≤ Zpos mz / 2 ^ k1))
    as [Hm1 Hm1x].
  { split.
    - apply pow2_le_div; [lia|].
      destruct (Z.eq_dec k1 0) as [->|Hk]; [simpl; lia|].
      transitivity (2 ^ (d - 1)); [|exact Hlo].
      apply Z.pow_le_mono_r; lia.
    - intros Heq. assert (k1 = ex - ez) as -> by lia.
      apply Z.div_le_lower_bound; [apply Z.pow_pos_nonneg; lia|lia]. }
  destruct m1r as [|p1|p1]; [lia| |lia].
  simpl Zdigits2.
  pose proof (digits2_pos_bounds p1) as [Hlo1 Hhi1].
  set (d1 := Zpos (digits2_pos p1)) in *.
  set (k2 := Z.max (Z.max (d1 + e1 - 53) (-1074) - e1) 0) in *.
  assert (1 ≤ Zpos p1 / 2 ^ k2) as Hm2.
  { apply pow2_le_div; [lia|].
    destruct (Z.eq_dec k2 0) as [->|Hk]; [simpl; lia|].
    transitivity (2 ^ (d1 - 1)); [|exact Hlo1].
    apply Z.pow_le_mono_r; lia. }
  assert (k2 = 0 → Zpos p1 / 2 ^ k2 = Zpos p1) as Hk2
    by (intros ->; apply Z.div_1_r).
  destruct (Zpos p1 / 2 ^ k2) as [|p2|p2] eqn:E2; [lia| |lia].
  unfold rounded. destruct (e1 + k2 <=? emax - prec); [|reflexivity].
  unfold SFleb, SFcompare.
  destruct (Z.compare_spec ex (e1 + k2)) as [Heq|Hlt|Hgt];
    [|reflexivity|lia].
  assert (k2 = 0) as Hz by lia. assert (e1 = ex) as Hee by lia.
  specialize (Hk2 Hz). specialize (Hm1x Hee).
  change (Pos.compare_cont Eq mx p2) with (Pos.compare mx p2).
  destruct (Pos.compare_spec mx p2) as [?|?|Hbad]; try reflexivity.
  exfalso. lia.
Qed.

Lemma SFsigned_good (r : spec_float) : SFsigned false r → SFgood r = true.
Proof. destruct r as [s|s| |s m e]; simpl; intros H; subst; done. Qed.

Lemma SFleb_refl (s : spec_float) : s ≠ S754_nan → SFleb s s = true.
Proof.
  destruct s as [s|s| |s m e]; intros Hs; try done.
  - by destruct s.
  - unfold SFleb, SFcompare. rewrite Z.compare_refl.
    change (Pos.compare_cont Eq m m) with (Pos.compare m m).
    rewrite Pos.compare_refl. by destruct s.
Qed.

Lemma shl_align_spec (mx : positive) (ex ez : Z) :
  Zpos (fst (shl_align mx ex ez)) = Zpos mx * 2 ^ (ex - Z.min ex ez) ∧
  snd (shl_align mx ex ez) = Z.min ex ez.
Proof.
  unfold shl_align. destruct (ez - ex) as [|d|d] eqn:E; simpl.
  - replace (ex - Z.min ex ez) with 0 by lia. simpl. lia.
  - replace (ex - Z.min ex ez) with 0 by lia. simpl. lia.
  - replace (ex - Z.min ex ez) with (Zpos d) by lia.
    split; [|lia]. change (Pos.iter xO mx d) with (shift_pos d mx).
    rewrite shift_pos_correct. rewrite Zpower_pos_nat, Zpower_nat_Z.
    rewrite positive_nat_Z. lia.
Qed.

Lemma binary_round_ge (mx s : positive) (ex ez : Z) :
  fexp prec emax (Zpos (digits2_pos mx) + ex) = ex →
  ez ≤ ex →
  Zpos mx * 2 ^ (ex - ez) ≤ Zpos s →
  SFleb (S754_finite false mx ex) (binary_round prec emax false s ez) = true ∧
  SFgood (binary_round prec emax false s ez) = true.
Proof.
  intros Hcanon Hez Hval. unfold binary_round.
  destruct (shl_align_spec s ez
              (fexp prec emax (Zpos (digits2_pos s) + ez))) as [Hm He].
  destruct (shl_align s ez _) as [mz ez'] eqn:E. simpl in Hm, He.
  split.
  - apply binary_round_aux_ge; [exact Hcanon|lia|].
    rewrite Hm.
    replace (ex - ez') with ((ex - ez) + (ez - ez')) by lia.
    rewrite Z.pow_add_r by lia.
    assert (0 < 2 ^ (ez - ez')) by (apply Z.pow_pos_nonneg; lia).
    rewrite He. nia.
  - apply SFsigned_good, binary_round_aux_signed. lia.
Qed.

Lemma canonical_of_valid (s : bool) (m : positive) (e : Z) :
  valid_binary (S754_finite s m e) = true →
  fexp prec emax (Zpos (digits2_pos m) + e) = e.
Proof.
  simpl. unfold bounded, canonical_mantissa.
  intros H. apply andb_true_iff in H as [H _]. by apply Z.eqb_eq in H.
Qed.

(** Adding a value that is not below zero to a counter value: the sum is
    a counter value again and is not below the counter value. *)
Lemma SFadd_good (x v : spec_float) :
  valid_binary x = true → valid_binary v = true →
  SFgood x = true → SFgood v = true →
  SFgood (SF64add x v) = true ∧ SFleb x (SF64add x v) = true.
Proof.
  intros Hvx Hvv Hx Hv.
  destruct x as [sx|[]| |[] mx ex]; try done;
    destruct v as [sv|[]| |[] mv ev]; try done;
    try (by (try destruct sx; try destruct sv)).
  - simpl. split; [done|]. apply SFleb_refl. done.
  - unfold SF64add, SFadd.
    destruct (shl_align_spec mx ex (Z.min ex ev)) as [Hmx _].
    destruct (shl_align_spec mv ev (Z.min ex ev)) as [Hmv _].
    simpl cond_Zopp.
    set (mx' := fst (shl_align mx ex (Z.min ex ev))) in *.
    set (mv' := fst (shl_align mv ev (Z.min ex ev))) in *.
    change (Z.pos mx' + Z.pos mv') with (Z.pos (mx' + mv')).
    simpl binary_normalize.
    destruct (binary_round_ge mx (mx' + mv') ex (Z.min ex ev)) as [Hle Hgood].
    + by apply canonical_of_valid in Hvx.
    + lia.
    + rewrite Pos2Z.inj_add, Hmx.
      replace (Z.min ex (Z.min ex ev)) with (Z.min ex ev) by lia. lia.
    + done.
Qed.

Lemma SFleb_finite (m1 m2 : positive) (e1 e2 : Z) :
  SFleb (S754_finite false m1 e1) (S754_finite false m2 e2) = true ↔
  e1 < e2 ∨ (e1 = e2 ∧ Zpos m1 ≤ Zpos m2).
Proof.
  unfold SFleb, SFcompare.
  change (Pos.compare_cont Eq m1 m2) with (Pos.compare m1 m2).
  destruct (Z.compare_spec e1 e2) as [He|He|He];
    [destruct (Pos.compare_spec m1 m2) as [Hm|Hm|Hm]|..];
    split; intros Hle; try done; lia.
Qed.

Lemma SFleb_trans (x y z : spec_float) :
  SFgood x = true → SFgood y = true → SFgood z = true →
  SFleb x y = true → SFleb y z = true → SFleb x z = true.
Proof.
  intros Hx Hy Hz.
  destruct x as [sx|[]| |[] mx ex]; try done;
    destruct y as [sy|[]| |[] my ey]; try done;
    destruct z as [sz|[]| |[] mz ez]; try done.
  rewrite !SFleb_finite. lia.
Qed.

Lemma float_add_good (x v : float) :
  good x → good v → good (x + v)%float ∧ (x <=? x + v)%float = true.
Proof.
  unfold good. intros Hx Hv. rewrite leb_spec, add_spec.
  apply SFadd_good; try done; apply Prim2SF_valid.
Qed.

Lemma float_leb_refl (x : float) : good x → (x <=? x)%float = true.
Proof.
  unfold good. intros Hx. rewrite leb_spec. apply SFleb_refl.
  intros H. by rewrite H in Hx.
Qed.

Lemma float_leb_trans (x y z : float) :
  good x → good y → good z →
  (x <=? y)%float = true → (y <=? z)%float = true → (x <=? z)%float = true.
Proof. unfold good. rewrite !leb_spec. apply SFleb_trans. Qed.

Lemma of_uint63_signed (n : int) : SFsigned false (Prim2SF (of_uint63 n)).
Proof.
  rewrite of_uint63_spec.
  pose proof (Uint63.to_Z_bounded n) as [Hn _].
  destruct (Uint63.to_Z n) as [|m|m]; simpl; [reflexivity| |lia].
  unfold binary_round. destruct (shl_align m 0 _) as [mz ez].
  apply binary_round_aux_signed. lia.
Qed.

Lemma SFsigned_not_nan (sx : bool) (r : spec_float) :
  SFsigned sx r → r ≠ S754_nan.
Proof. by destruct r. Qed.

Lemma float_of_int64_not_nan (z : Z) : Prim2SF (float_of_int64 z) ≠ S754_nan.
Proof.
  unfold float_of_int64. destruct (z =? - 2 ^ 63).
  - by vm_compute.
  - destruct (z <? 0).
    + rewrite opp_spec.
      pose proof (of_uint63_signed (Uint63.of_Z (- z))) as H.
      by destruct (Prim2SF _).
    + eapply SFsigned_not_nan, of_uint63_signed.
Qed.

Lemma SFdiv_not_nan (x : spec_float) (sy : bool) (my : positive) (ey : Z) :
  x ≠ S754_nan → SF64div x (S754_finite sy my ey) ≠ S754_nan.
Proof.
  intros Hx. destruct x as [sx|sx| |sx mx ex]; try done.
  unfold SF64div, SFdiv, SFdiv_core_binary.
  set (e' := Z.min _ _). set (m' := match _ with Z0 => _ | _ => _ end).
  assert (0 ≤ m') as Hm'.
  { unfold m'. destruct (ex - ey - e'); [lia| |lia].
    apply Z.shiftl_nonneg. lia. }
  assert (0 ≤ m' / Zpos my) as Hq by (apply Z.div_pos; lia).
  unfold Z.div in Hq. destruct (Z.div_eucl m' (Zpos my)) as [q r].
  eapply SFsigned_not_nan, binary_round_aux_signed. exact Hq.
Qed.

(** The amount of a sample is never NaN, so an amount that [Add] accepts
    is not NaN and not below zero. *)
Lemma amount_good (z : Z) :
  @f_ltb ieee_float64 (nanosToMillis z) f_zero = false →
  good (nanosToMillis (FL := ieee_float64) z).
Proof.
  change (nanosToMillis (FL := ieee_float64) z)
    with (float_of_int64 z / float_of_int64 1000000)%float.
  set (v := (float_of_int64 z / float_of_int64 1000000)%float).
  change (@f_ltb ieee_float64 v f_zero) with (v <? 0)%float.
  unfold good. rewrite ltb_spec.
  assert (Prim2SF v ≠ S754_nan) as Hnan.
  { unfold v. rewrite div_spec.
    assert (∃ sy my ey, Prim2SF (float_of_int64 1000000)
                        = S754_finite sy my ey) as (sy & my & ey & ->)
      by (vm_compute; eauto).
    apply SFdiv_not_nan, float_of_int64_not_nan. }
  change (Prim2SF 0) with (S754_zero false).
  destruct (Prim2SF v) as [s|[]| |[] m e]; done.
Qed.

(** ** Monotone counters *)

Section MonotoneFacts.

#[local] Existing Instance ieee_float64.

Variable Parse : bytes → ParseResult.

Implicit Types (vec : gmap string float64) (c : cpuProfileCollector)
  (w : World).

Lemma good_zero : good (@f_zero ieee_float64).
Proof. by vm_compute. Qed.

Lemma vecLe_refl vec : vecGood vec → vecLe vec vec.
Proof.
  intros Hgood function x Hx. exists x. split; [done|].
  apply float_leb_refl. by eapply Hgood.
Qed.

Lemma vecLe_trans vec1 vec2 vec3 :
  vecGood vec1 → vecGood vec2 → vecGood vec3 →
  vecLe vec1 vec2 → vecLe vec2 vec3 → vecLe vec1 vec3.
Proof.
  intros H1 H2 H3 H12 H23 function x Hx.
  destruct (H12 function x Hx) as (y & Hy & Hxy).
  destruct (H23 function y Hy) as (z & Hz & Hyz).
  exists z. split; [done|].
  eapply (float_leb_trans x y z); eauto.
Qed.

Lemma countersLe_refl c : goodCounters c → countersLe c c.
Proof. intros [Hs Hc]. split_and!; try (by apply vecLe_refl); lia. Qed.

Lemma countersLe_trans c1 c2 c3 :
  goodCounters c1 → goodCounters c2 → goodCounters c3 →
  countersLe c1 c2 → countersLe c2 c3 → countersLe c1 c3.
Proof.
  intros [G1s G1c] [G2s G2c] [G3s G3c]
    (Hs12 & Hc12 & Ha12 & Ho12) (Hs23 & Hc23 & Ha23 & Ho23).
  split_and!; try lia.
  - by apply (vecLe_trans _ (timeUsed c2)).
  - by apply (vecLe_trans _ (timeUsedCum c2)).
Qed.

(** Creating a child takes nothing away. *)
Lemma WithLabelValues_grows (lv : string) vec :
  vecGood vec →
  vecGood (WithLabelValues lv vec) ∧ vecLe vec (WithLabelValues lv vec).
Proof.
  intros Hgood.
  assert (good (default f_zero (vec !! lv))) as Hold.
  { destruct (vec !! lv) as [y|] eqn:E;
      [exact (Hgood lv y E)|apply good_zero]. }
  split.
  - intros function x. destruct (decide (lv = function)) as [<-|Hne].
    + rewrite WithLabelValues_lookup. intros [= <-]. exact Hold.
    + rewrite WithLabelValues_lookup_ne by done. apply Hgood.
  - intros function x Hx. exists x. split.
    + destruct (decide (lv = function)) as [<-|Hne].
      * by rewrite WithLabelValues_lookup, Hx.
      * by rewrite WithLabelValues_lookup_ne.
    + apply float_leb_refl. by eapply Hgood.
Qed.

(** An [Add] of a value that is not NaN and not below zero does not
    decrease any child. *)
Lemma credit_grows (lv : string) (v : float64) vec :
  vecGood vec → good v →
  vecGood (credit lv v vec) ∧ vecLe vec (credit lv v vec).
Proof.
  intros Hgood Hv.
  assert (good (default f_zero (vec !! lv))) as Hold.
  { destruct (vec !! lv) as [y|] eqn:E;
      [exact (Hgood lv y E)|apply good_zero]. }
  destruct (float_add_good _ v Hold Hv) as [Hsum Hle].
  split.
  - intros function x. destruct (decide (lv = function)) as [<-|Hne].
    + rewrite credit_lookup. by intros [= <-].
    + rewrite credit_lookup_ne by done. apply Hgood.
  - intros function x Hx. destruct (decide (lv = function)) as [<-|Hne].
    + rewrite credit_lookup. eexists. split; [done|].
      rewrite Hx in Hle |- *. exact Hle.
    + rewrite credit_lookup_ne by done. exists x. split; [done|].
      apply float_leb_refl. by eapply Hgood.
Qed.

(** An [Add] of the amount of a sample, going through or panicking, does
    not decrease any child. *)
Lemma Add_grows (lv : string) (z : Z) vec :
  vecGood vec →
  vecGood (finalState (WithLabelValues_Add lv (nanosToMillis z) vec)) ∧
  vecLe vec (finalState (WithLabelValues_Add lv (nanosToMillis z) vec)).
Proof.
  intros Hgood. destruct (f_ltb (nanosToMillis z) f_zero) eqn:Hv.
  - rewrite WithLabelValues_Add_panic by done.
    by apply WithLabelValues_grows.
  - rewrite WithLabelValues_Add_ok by done.
    apply credit_grows; [done|]. by apply amount_good.
Qed.

(** A property of the collector that every [Add] of an amount keeps,
    going through or panicking, holds after [processSample]. *)
Lemma processSample_finalState_amount (P : cpuProfileCollector → Prop)
    (locations : gmap Z string) (s : Sample) c :
  (∀ c lv z, P c →
     P (finalState (onTimeUsed (WithLabelValues_Add lv (nanosToMillis z)) c))) →
  (∀ c lv z, P c →
     P (finalState (onTimeUsedCum (WithLabelValues_Add lv (nanosToMillis z)) c))) →
  P c → P (finalState (processSample locations s c)).
Proof.
  intros Hself Hcum Hc. unfold processSample.
  destruct (_ || _); [done|].
  destruct (SLocation s !! 0%nat) as [l0|]; [|done].
  destruct (Value s !! 1%nat) as [v1|]; [|done].
  unfold bind.
  specialize (Hself c (mapIndex locations (ID l0)) v1 Hc).
  destruct (onTimeUsed _ c) as [[] c1|c1]; simpl in Hself; [|done].
  apply (forEach_finalState P); [|done].
  intros l c2 Hc2. by apply Hcum.
Qed.

Lemma grownFrom_refl c : goodCounters c → grownFrom c c.
Proof. intros Hc. split; [done|by apply countersLe_refl]. Qed.

Lemma grownFrom_trans c0 c1 c2 :
  goodCounters c0 → grownFrom c0 c1 → grownFrom c1 c2 → grownFrom c0 c2.
Proof.
  intros H0 [H1 H01] [H2 H12]. split; [done|].
  by apply (countersLe_trans c0 c1 c2).
Qed.

Lemma onTimeUsed_grows (lv : string) (z : Z) c :
  goodCounters c →
  grownFrom c
    (finalState (onTimeUsed (WithLabelValues_Add lv (nanosToMillis z)) c)).
Proof.
  intros [Hs Hc]. destruct (Add_grows lv z (timeUsed c) Hs) as [Hgood Hle].
  unfold onTimeUsed, zoom.
  destruct (WithLabelValues_Add lv (nanosToMillis z) (timeUsed c))
    as [[] vec|vec]; simpl in *;
    (split; [by split|]; split_and!; simpl;
     [done|by apply vecLe_refl|lia|lia]).
Qed.

Lemma onTimeUsedCum_grows (lv : string) (z : Z) c :
  goodCounters c →
  grownFrom c
    (finalState (onTimeUsedCum (WithLabelValues_Add lv (nanosToMillis z)) c)).
Proof.
  intros [Hs Hc]. destruct (Add_grows lv z (timeUsedCum c) Hc) as [Hgood Hle].
  unfold onTimeUsedCum, zoom.
  destruct (WithLabelValues_Add lv (nanosToMillis z) (timeUsedCum c))
    as [[] vec|vec]; simpl in *;
    (split; [by split|]; split_and!; simpl;
     [by apply vecLe_refl|done|lia|lia]).
Qed.

Lemma processSample_grows c0 (locations : gmap Z string) (s : Sample) c :
  goodCounters c0 → grownFrom c0 c →
  grownFrom c0 (finalState (processSample locations s c)).
Proof.
  intros H0. apply (processSample_finalState_amount (grownFrom c0)).
  - intros c1 lv z Hc1. apply (grownFrom_trans c0 c1); [done..|].
    apply onTimeUsed_grows. apply Hc1.
  - intros c1 lv z Hc1. apply (grownFrom_trans c0 c1); [done..|].
    apply onTimeUsedCum_grows. apply Hc1.
Qed.

Lemma aggregate_grows (locations : gmap Z string) (samples : list Sample) c :
  goodCounters c →
  grownFrom c (finalState (forEach samples (processSample locations) c)).
Proof.
  intros Hc. apply (forEach_finalState (grownFrom c)).
  - intros s c1. by apply processSample_grows.
  - by apply grownFrom_refl.
Qed.

Lemma Collect_grows w :
  goodCounters (collector w) →
  grownFrom (collector w) (collector (finalState (Collect Parse w))).
Proof.
  intros Hw. destruct (running (collector w)) eqn:Hrun.
  - rewrite Collect_running by done.
    destruct (Parse _) as [p|err]; [|by apply grownFrom_refl].
    pose proof (aggregate_grows
      (mapLocations (PLocation p) (symbols (collector w))) (PSample p)
      (collector w) Hw) as Hle.
    by destruct (forEach _ _ _) as [[] c'|c'].
  - rewrite Collect_not_running by done. by apply grownFrom_refl.
Qed.

Lemma step_grows op w :
  goodCounters (collector w) →
  grownFrom (collector w) (collector (finalState (step Parse op w))).
Proof.
  intros Hw. pose proof Hw as [Hs Hc]. destruct op as [| | |data]; simpl.
  - unfold bind, ret. destruct (running (collector w)) eqn:Hrun.
    + rewrite Start_running by done. by apply grownFrom_refl.
    + rewrite Start_stopped by done. simpl. split; [done|].
      split_and!; simpl; try (by apply vecLe_refl); unfold Inc; lia.
  - unfold bind, ret. destruct (running (collector w)) eqn:Hrun.
    + rewrite Stop_running by done. simpl. split; [done|].
      split_and!; simpl; try (by apply vecLe_refl); unfold Inc; lia.
    + rewrite Stop_stopped by done. by apply grownFrom_refl.
  - by apply Collect_grows.
  - by apply grownFrom_refl.
Qed.

Lemma run_grows ops w :
  goodCounters (collector w) →
  grownFrom (collector w) (collector (finalState (run Parse ops w))).
Proof.
  revert w. induction ops as [|op ops IH]; intros w Hw; simpl.
  - by apply grownFrom_refl.
  - unfold bind. pose proof (step_grows op w Hw) as Hstep.
    destruct (step Parse op w) as [ch w1|w1]; simpl in Hstep; [|done].
    pose proof (IH w1 (proj1 Hstep)) as Hrest. unfold ret.
    destruct (run Parse ops w1) as [ch' w2|w2]; simpl in *;
      by apply (grownFrom_trans _ (collector w1)).
Qed.

Lemma newWorld_good (symbols : list Sym) :
  goodCounters (collector (newWorld symbols)).
Proof.
  split; intros function x Hx; simpl in Hx; by rewrite lookup_empty in Hx.
Qed.

End MonotoneFacts.

(** C6. In binary64 and its own order [<=]: from any state that a fresh
    collector has reached by [Start], [Stop] and scrapes, with the
    runtime buffering profile data in between, no further operation and
    no further run of operations decreases any of the four counters.
    Every child of the self-time and of the cumulative counter that
    exists before is there afterwards with a value that is [<=]-at least
    as large, and [started] and [stopped] are at least what they were;
    this includes a scrape that panics, for the state at the abort. *)
Theorem counters_monotone (Parse : bytes → ParseResult) (symbols : list Sym)
    (ops1 : list Op) :
  let w1 := finalState (run (FL := ieee_float64) Parse ops1
                          (newWorld symbols)) in
  (∀ op, countersLe (collector w1)
           (collector (finalState (step Parse op w1)))) ∧
  (∀ ops2, countersLe (collector w1)
             (collector (finalState (run Parse ops2 w1)))).
Proof.
  intros w1.
  assert (goodCounters (collector w1)) as Hgood.
  { apply (run_grows Parse ops1 (newWorld symbols)). apply newWorld_good. }
  split.
  - intros op. by apply step_grows.
  - intros ops2. by apply run_grows.
Qed.

(** A started collector has scraped the scenario's profile once: [f] has
    300 ms of self time. A second scrape and a [Stop] take it to 600 ms,
    and no counter has decreased. *)
Lemma counters_monotone_witness :
  let FL := ieee_float64 in
  let w1 := finalState (run Scenario.decodes [OpStart; OpCollect]
                          (newWorld Scenario.adjacentSymbols)) in
  let w2 := finalState (run Scenario.decodes [OpCollect; OpStop] w1) in
  countersLe (collector w1) (collector w2) ∧
  timeUsed (collector w1) !! "f" = Some 300%float ∧
  timeUsed (collector w2) !! "f" = Some 600%float.
Proof.
  intros FL w1 w2. split; [|split; reflexivity].
  apply (counters_monotone Scenario.decodes Scenario.adjacentSymbols
           [OpStart; OpCollect]).
Defined.

(** ** The profiler's rate and [running] *)

Section RateFacts.

Context {FL : Float64}.

Variable Parse : bytes → ParseResult.

Implicit Types (w : World) (c : cpuProfileCollector).

Lemma rateConsistent_running c (data : list bytes) :
  running c = true →
  rateConsistent
    {| collector := c; profileRate := cpuProfileRate; profileData := data |}.
Proof. intros Hrun. unfold rateConsistent. simpl. rewrite Hrun. by split. Qed.

Lemma rateConsistent_stopped c (data : list bytes) :
  running c = false →
  rateConsistent {| collector := c; profileRate := 0; profileData := data |}.
Proof. intros Hrun. unfold rateConsistent. simpl. rewrite Hrun. by split. Qed.

(** A scrape of a running collector that returns has put the rate back. *)
Lemma Collect_resumes w ch w' :
  running (collector w) = true →
  Collect Parse w = Return ch w' →
  profileRate w' = cpuProfileRate ∧ running (collector w') = true.
Proof.
  intros Hrun. rewrite Collect_running by done.
  destruct (Parse _) as [p|err]; [|done].
  pose proof (aggregate_lifecycle
    (mapLocations (PLocation p) (symbols (collector w))) (PSample p)
    (collector w)) as (Hr & _).
  destruct (forEach _ _ _) as [[] c'|c']; [|done].
  intros [= _ <-]. simpl in *. by rewrite Hr.
Qed.

Lemma step_rateConsistent op w ch w' :
  rateConsistent w → step Parse op w = Return ch w' → rateConsistent w'.
Proof.
  intros Hw. destruct op as [| | |data]; simpl; unfold bind, ret.
  - destruct (running (collector w)) eqn:Hrun.
    + rewrite Start_running by done. by intros [= _ <-].
    + rewrite Start_stopped by done. intros [= _ <-].
      by apply rateConsistent_running.
  - destruct (running (collector w)) eqn:Hrun.
    + rewrite Stop_running by done. intros [= _ <-].
      by apply rateConsistent_stopped.
    + rewrite Stop_stopped by done. by intros [= _ <-].
  - destruct (running (collector w)) eqn:Hrun.
    + intros Hret. destruct (Collect_resumes w ch w' Hrun Hret) as [Hrate Hr].
      destruct w' as [c' hz data]. simpl in *. subst hz.
      by apply rateConsistent_running.
    + rewrite Collect_not_running by done. by intros [= _ <-].
  - intros [= _ <-]. exact Hw.
Qed.

Lemma run_rateConsistent ops w ch w' :
  rateConsistent w → run Parse ops w = Return ch w' → rateConsistent w'.
Proof.
  revert w ch. induction ops as [|op ops IH]; intros w ch Hw; simpl.
  - by intros [= _ <-].
  - unfold bind. destruct (step Parse op w) as [ch1 w1|w1] eqn:Hstep; [|done].
    destruct (run Parse ops w1) as [ch2 w2|w2] eqn:Hrun; [|done].
    intros [= _ <-]. eapply IH; [|done].
    by eapply step_rateConsistent.
Qed.

End RateFacts.

(** C8, as the code really is. A started collector scrapes while the
    decoder rejects the drained bytes: the scrape ends in a panic after
    the rate has been set to 0 and before it is set back, with [running]
    still true. *)
Lemma failed_decode_leaves_rate_off :
  let FL := ieee_float64 in
  let w' := finalState (run Scenario.malformed [OpStart; OpCollect]
                          (newWorld Scenario.adjacentSymbols)) in
  running (collector w') = true ∧ profileRate w' = 0 ∧ ¬ rateConsistent w'.
Proof.
  intros FL w'. split_and!; [reflexivity..|].
  intros [_ [Hoff _]]. specialize (Hoff eq_refl). discriminate Hoff.
Qed.

(** C8, amended. A fresh collector has the rate at 0 and is stopped, and
    every [Start], [Stop] or scrape that returns keeps the rate and
    [running] in agreement: the rate is [cpuProfileRate] exactly when
    [running] is true and 0 exactly when it is false, after any run of
    operations that returns. A scrape of a running collector that
    returns has set the rate back to [cpuProfileRate]. [Start] and
    [Stop] always return. *)
Theorem rate_consistent_on_return {FL : Float64} (Parse : bytes → ParseResult) :
  (∀ symbols, rateConsistent (newWorld symbols)) ∧
  (∀ op w ch w', rateConsistent w → step Parse op w = Return ch w' →
                 rateConsistent w') ∧
  (∀ ops w ch w', rateConsistent w → run Parse ops w = Return ch w' →
                  rateConsistent w') ∧
  (∀ w ch w', running (collector w) = true → Collect Parse w = Return ch w' →
              profileRate w' = cpuProfileRate ∧ running (collector w') = true) ∧
  (∀ w, ∃ w', Start w = Return tt w') ∧
  (∀ w, ∃ w', Stop w = Return tt w').
Proof.
  split_and!.
  - intros symbols. by apply rateConsistent_stopped.
  - apply step_rateConsistent.
  - apply run_rateConsistent.
  - apply Collect_resumes.
  - intros w. destruct (running (collector w)) eqn:Hrun.
    + exists w. by apply Start_running.
    + eexists. by apply Start_stopped.
  - intros w. destruct (running (collector w)) eqn:Hrun.
    + eexists. by apply Stop_running.
    + exists w. by apply Stop_stopped.
Qed.

(** A started collector scrapes the scenario's profile and returns: the
    rate is back at [cpuProfileRate]. *)
Lemma rate_consistent_on_return_witness :
  let FL := ieee_float64 in
  ∃ ch w', run Scenario.decodes [OpStart; OpProfiled []; OpCollect]
             (newWorld Scenario.adjacentSymbols) = Return ch w' ∧
           rateConsistent w' ∧ profileRate w' = cpuProfileRate.
Proof.
  intros FL.
  destruct (rate_consistent_on_return (FL := FL) Scenario.decodes)
    as (Hnew & _ & Hrun & _).
  destruct (run Scenario.decodes [OpStart; OpProfiled []; OpCollect]
              (newWorld Scenario.adjacentSymbols)) as [ch w'|w'] eqn:E;
    [|vm_compute in E; discriminate E].
  exists ch, w'. split; [reflexivity|].
  split; [exact (Hrun _ _ _ _ (Hnew Scenario.adjacentSymbols) E)|].
  vm_compute in E. injection E as _ <-. reflexivity.
Defined.

(** ** The scenarios, computed in binary64 *)

Section Computed.

#[local] Existing Instance ieee_float64.

(** Symbol table [{f,100,50}], stack [{id 1, address 120}], 1e9 ns. *)
Example one_second_in_f :
  let e := processSample (mapLocations [Scenario.at120] [Scenario.f])
             {| SLocation := [Scenario.at120]; Value := [1; 1000000000] |}
             (NewCPUProfileCollector [Scenario.f]) in
  returned e = true ∧
  map_to_list (timeUsed (finalState e)) = [("f", 1000%float)] ∧
  map_to_list (timeUsedCum (finalState e)) = [("f", 1000%float)].
Proof. by vm_compute. Qed.

(** One scrape of the scenario's profile by a started collector. *)
Example scrape_scenario :
  let e := run Scenario.decodes [OpStart; OpProfiled []; OpCollect]
             (newWorld Scenario.adjacentSymbols) in
  let w' := finalState e in
  returned e = true ∧
  timeUsed (collector w') !! "f" = Some 300%float ∧
  timeUsed (collector w') !! "" = Some 500%float ∧
  timeUsedCum (collector w') !! "f" = Some 1100%float ∧
  timeUsedCum (collector w') !! "" = Some 500%float ∧
  size (timeUsed (collector w')) = 2%nat ∧
  size (timeUsedCum (collector w')) = 2%nat ∧
  started (collector w') = 1%N ∧ stopped (collector w') = 0%N ∧
  profileRate w' = cpuProfileRate ∧ profileData w' = [].
Proof. by vm_compute. Qed.

(** An amount below zero: [Add] panics with the child already created. *)
Example negative_amount_panics :
  let e := processSample ∅
             {| SLocation := [Scenario.at120]; Value := [1; -1000000] |}
             (NewCPUProfileCollector []) in
  returned e = false ∧
  map_to_list (timeUsed (finalState e)) = [("", 0%float)].
Proof. by vm_compute. Qed.

End Computed.

(** ** Further properties of the resolver *)

(** Locations with another ID, and locations that hit no symbol, leave
    the entry under an ID alone. *)
Lemma fold_scanSymbols_skip (locations : list Location) (symbols : list Sym)
    (result : gmap Z string) (id : Z) :
  (∀ l, l ∈ locations → ID l = id →
        firstSymbol symbols (Address l) = None) →
  fold_left (λ result l, scanSymbols l symbols result) locations result !! id
  = result !! id.
Proof.
  revert result. induction locations as [|l locations IH]; intros result Hno;
    simpl; [done|].
  rewrite IH.
  - rewrite scanSymbols_lookup.
    destruct (firstSymbol symbols (Address l)) as [s|] eqn:E; [|done].
    destruct (decide (ID l = id)) as [Hid|Hid]; [|done].
    rewrite (Hno l) in E; [done|apply list_elem_of_here|done].
  - intros l' Hl' Hid. apply Hno; [by apply list_elem_of_further|done].
Qed.

(** X1. When several locations carry the same ID, the entry under that ID
    is the name found for the last of them that hits a symbol: the
    locations before it in the list play no part, and locations after it
    with the same ID that hit no symbol do not take the entry away. *)
Theorem mapLocations_last_match (pre post : list Location) (l : Location)
    (symbols : list Sym) (s : Sym) :
  firstSymbol symbols (Address l) = Some s →
  (∀ l', l' ∈ post → ID l' = ID l →
         firstSymbol symbols (Address l') = None) →
  mapLocations (pre ++ l :: post) symbols !! ID l = Some (Name s).
Proof.
  intros Hhit Hpost. unfold mapLocations.
  rewrite fold_left_app. simpl.
  rewrite fold_scanSymbols_skip by done.
  rewrite scanSymbols_lookup, Hhit. by rewrite decide_True.
Qed.

(** Three locations under ID 1: inside [g], inside [f], outside. The
    entry is [f]. *)
Lemma mapLocations_last_match_witness :
  mapLocations
    ([{| ID := 1; Address := 170 |}] ++ Scenario.at120 ::
     [{| ID := 1; Address := 500 |}])
    Scenario.adjacentSymbols !! 1 = Some "f".
Proof.
  apply (mapLocations_last_match [{| ID := 1; Address := 170 |}]
           [{| ID := 1; Address := 500 |}] Scenario.at120
           Scenario.adjacentSymbols Scenario.f).
  - reflexivity.
  - intros l' Hl' _. apply list_elem_of_singleton in Hl' as ->. reflexivity.
Defined.

(** X2. Every entry of the returned map comes from the input: under an ID
    stands the name of a symbol of the table, namely of the first symbol
    whose range contains the address of some location with that ID. *)
Theorem mapLocations_sound (locations : list Location) (symbols : list Sym)
    (id : Z) (name : string) :
  mapLocations locations symbols !! id = Some name →
  ∃ l s, l ∈ locations ∧ ID l = id ∧ s ∈ symbols ∧
         contains s (Address l) ∧ Name s = name ∧
         firstSymbol symbols (Address l) = Some s.
Proof.
  unfold mapLocations. rewrite fold_scanSymbols_lookup.
  destruct (List.find _ (rev locations)) as [l|] eqn:E; [|by rewrite lookup_empty].
  apply find_some in E as [Hin Hdec].
  apply bool_decide_eq_true in Hdec as [Hid [s Hs]].
  apply in_rev, list_elem_of_In in Hin.
  rewrite Hs. intros [= <-]. exists l, s.
  destruct (firstSymbol_Some _ _ _ Hs) as (pre & post & -> & _ & Hc).
  split_and!; try done. apply elem_of_app. right. apply list_elem_of_here.
Qed.

(** The entry under 2 in the scenario's map is the name of [f], which
    contains 130. *)
Lemma mapLocations_sound_witness :
  ∃ l s, l ∈ PLocation Scenario.profile ∧ ID l = 2 ∧
         s ∈ Scenario.adjacentSymbols ∧ contains s (Address l) ∧
         Name s = "f" ∧
         firstSymbol Scenario.adjacentSymbols (Address l) = Some s.
Proof.
  apply (mapLocations_sound (PLocation Scenario.profile)
           Scenario.adjacentSymbols 2 "f").
  reflexivity.
Defined.

(** X3. With an empty symbol table the returned map is empty whatever the
    locations are, so that every ID reads as the empty string. *)
Theorem mapLocations_no_symbols (locations : list Location) :
  mapLocations locations [] = ∅ ∧
  ∀ id, mapIndex (mapLocations locations []) id = "".
Proof.
  assert (mapLocations locations [] = ∅) as Hempty.
  { apply map_eq. intros id. unfold mapLocations.
    rewrite fold_scanSymbols_skip; [done|]. done. }
  split; [done|]. intros id. by rewrite Hempty.
Qed.

(** X4. A symbol whose end [Addr + Size] does not fit into [uint64]
    contains no address: the upper bound wraps around to below [Addr].
    The same holds for a symbol of negative size that does not reach
    below address 0. The scan passes over such a symbol. *)
Theorem inRange_wrapped_empty (s : Sym) :
  0 ≤ Addr s < 2 ^ 64 →
  (0 < Size s < 2 ^ 64 ∧ 2 ^ 64 ≤ Addr s + Size s) ∨
  (- 2 ^ 63 ≤ Size s < 0 ∧ 0 ≤ Addr s + Size s) →
  (∀ address, inRange s address = false) ∧
  (∀ l symbols result,
     scanSymbols l (s :: symbols) result = scanSymbols l symbols result).
Proof.
  intros Haddr Hsize.
  assert (uint64 (Addr s + uint64 (Size s)) < Addr s) as Hwrap.
  { unfold uint64. destruct Hsize as [[Hs Hover]|[Hs Hunder]].
    - rewrite (Z.mod_small (Size s)) by lia.
      replace (Addr s + Size s) with (Addr s + Size s - 2 ^ 64 + 1 * 2 ^ 64)
        by lia.
      rewrite Z.mod_add by lia. rewrite Z.mod_small by lia. lia.
    - replace (Size s) with (Size s + 2 ^ 64 + (-1) * 2 ^ 64) at 1 by lia.
      rewrite Z.mod_add by lia. rewrite (Z.mod_small (Size s + 2 ^ 64)) by lia.
      replace (Addr s + (Size s + 2 ^ 64))
        with (Addr s + Size s + 1 * 2 ^ 64) by lia.
      rewrite Z.mod_add by lia. rewrite Z.mod_small by lia. lia. }
  assert (∀ address, inRange s address = false) as Hempty.
  { intros address. apply inRange_not_contains. unfold contains. lia. }
  split; [done|]. intros l symbols result. simpl. by rewrite Hempty.
Qed.

(** A symbol of 32 bytes that starts 16 bytes below [2^64]. *)
Lemma inRange_wrapped_empty_witness :
  inRange {| Name := "top"; Addr := 2 ^ 64 - 16; Size := 32 |} (2 ^ 64 - 8)
    = false.
Proof.
  apply (inRange_wrapped_empty
           {| Name := "top"; Addr := 2 ^ 64 - 16; Size := 32 |}).
  - simpl. lia.
  - left. simpl. lia.
Defined.

(** X5. For a symbol that ends below [2^64] the range has both ends in
    it: the start address and the address [Addr + Size], one past the
    symbol's last byte, are contained, the addresses next to them on the
    outside are not. So the start address of a function that is laid out
    right behind [s] resolves to [s] when [s] is the first symbol of the
    table that contains it. *)
Theorem inRange_endpoints (s : Sym) :
  0 ≤ Addr s → 0 ≤ Size s → Addr s + Size s < 2 ^ 64 →
  inRange s (Addr s) = true ∧
  inRange s (Addr s + Size s) = true ∧
  inRange s (Addr s - 1) = false ∧
  inRange s (Addr s + Size s + 1) = false ∧
  (∀ l pre post result,
     Address l = Addr s + Size s →
     Forall (λ s', inRange s' (Address l) = false) pre →
     scanSymbols l (pre ++ s :: post) result = <[ID l := Name s]> result).
Proof.
  intros Haddr Hsize Hend.
  pose proof (uint64_no_wrap s Haddr Hsize Hend) as Hbound.
  assert (∀ address, inRange s address = true ↔
                     Addr s ≤ address ≤ Addr s + Size s) as Hin.
  { intros address. rewrite inRange_contains. unfold contains.
    by rewrite Hbound. }
  assert (∀ address, ¬ (Addr s ≤ address ≤ Addr s + Size s) →
                     inRange s address = false) as Hout.
  { intros address Hno. destruct (inRange s address) eqn:E; [|done].
    by apply Hin in E. }
  split_and!.
  - apply Hin. lia.
  - apply Hin. lia.
  - apply Hout. lia.
  - apply Hout. lia.
  - intros l pre post result Hl Hpre.
    rewrite scanSymbols_firstSymbol.
    erewrite firstSymbol_split; [done|done| |].
    + eapply Forall_impl; [exact Hpre|]. intros s' Hs'.
      by apply inRange_not_contains.
    + apply inRange_contains. apply Hin. lia.
Qed.

(** Address 150, where [g] starts, resolves to [f]. *)
Lemma inRange_endpoints_witness :
  scanSymbols Scenario.at150 ([] ++ Scenario.f :: [Scenario.g]) ∅ =
  <[3 := "f"]> ∅.
Proof.
  destruct (inRange_endpoints Scenario.f) as (_ & _ & _ & _ & Hscan).
  - simpl. lia.
  - simpl. lia.
  - simpl. lia.
  - apply (Hscan Scenario.at150 [] [Scenario.g] ∅).
    + reflexivity.
    + constructor.
Defined.

(** ** Further properties of the aggregator *)

Section AggregatorMore.

Context {FL : Float64}.

Implicit Types (c : cpuProfileCollector) (locations : gmap Z string)
  (s : Sample).

Lemma forEach_app {S A} (xs ys : list A) (body : A → Cmd S unit) (st : S) :
  forEach (xs ++ ys) body st =
  match forEach xs body st with
  | Return _ st' => forEach ys body st'
  | Panic st' => Panic st'
  end.
Proof.
  revert st. induction xs as [|x xs IH]; intros st; simpl; [done|].
  unfold bind. destruct (body x st) as [[] st'|st']; [apply IH|done].
Qed.

(** What a loop that returns has kept, when every round that returns
    keeps it. *)
Lemma forEach_returned_inv {S A} (P : S → Prop) (xs : list A)
    (body : A → Cmd S unit) (st st' : S) :
  (∀ x st st', P st → body x st = Return tt st' → P st') →
  P st → forEach xs body st = Return tt st' → P st'.
Proof.
  intros Hbody. revert st. induction xs as [|x xs IH]; intros st Hst; simpl.
  - by intros [= <-].
  - unfold bind. destruct (body x st) as [[] st1|st1] eqn:E; [|done].
    apply IH. by eapply Hbody.
Qed.

(** A sample that is not passed over has a leaf and a second value. *)
Lemma skipped_false s :
  skipped s = false →
  ∃ (l0 : Location) (v1 : Z),
    SLocation s !! 0%nat = Some l0 ∧ Value s !! 1%nat = Some v1.
Proof.
  unfold skipped. intros H. apply orb_false_iff in H as [H0 H1].
  apply Nat.eqb_neq in H0. apply Nat.ltb_ge in H1.
  destruct (SLocation s) as [|l0 stack]; [done|].
  destruct (Value s) as [|v0 [|v1 vs]]; simpl in H1; [lia..|].
  by exists l0, v1.
Qed.

Lemma skipped_true s c locations :
  skipped s = true → processSample locations s c = Return tt c.
Proof. intros H. unfold processSample. fold (skipped s). by rewrite H. Qed.

(** What [processSample] does with a sample that has a stack and two
    values, when the amount is below zero. *)
Lemma processSample_panic locations s c (l0 : Location) (v1 : Z) :
  SLocation s !! 0%nat = Some l0 → Value s !! 1%nat = Some v1 →
  f_ltb (nanosToMillis v1) f_zero = true →
  processSample locations s c =
  Panic (set_timeUsed
           (WithLabelValues (frameName locations l0) (timeUsed c)) c).
Proof.
  intros Hl0 Hv1 Hv. unfold processSample. rewrite Hl0, Hv1.
  apply lookup_lt_Some in Hl0 as Hlen0. apply lookup_lt_Some in Hv1 as Hlen1.
  destruct (length (SLocation s)) as [|n] eqn:En; [lia|].
  destruct (length (Value s)) as [|[|m]] eqn:Em; [lia|lia|]. simpl.
  unfold bind, onTimeUsed, zoom.
  by rewrite (WithLabelValues_Add_panic _ _ _ Hv).
Qed.

Lemma processSample_returned locations s c :
  returned (processSample locations s c) = creditable s.
Proof.
  unfold creditable. destruct (skipped s) eqn:Hskip.
  - by rewrite skipped_true.
  - destruct (skipped_false s Hskip) as (l0 & v1 & Hl0 & Hv1).
    rewrite Hv1. simpl.
    destruct (f_ltb (nanosToMillis v1) f_zero) eqn:Hv.
    + by rewrite (processSample_panic _ _ _ l0 v1).
    + by rewrite (processSample_valid _ _ _ l0 v1).
Qed.

Lemma aggregate_returned locations (samples : list Sample) c :
  returned (forEach samples (processSample locations) c) =
  forallb creditable samples.
Proof.
  revert c. induction samples as [|s samples IH]; intros c; simpl; [done|].
  unfold bind. pose proof (processSample_returned locations s c) as Hs.
  destruct (processSample locations s c) as [[] c1|c1]; simpl in Hs;
    rewrite <- Hs; [apply IH|done].
Qed.

End AggregatorMore.

(** X6. A sample with a stack and two values whose amount is below zero
    makes the aggregation panic at the first [Add]: the leaf's function
    has got a self-time counter at zero if it had none, every counter
    that existed keeps its value, and the cumulative counters are
    untouched. *)
Theorem processSample_negative_amount {FL : Float64}
    (locations : gmap Z string) (s : Sample) (c : cpuProfileCollector)
    (l0 : Location) (v1 : Z) :
  SLocation s !! 0%nat = Some l0 → Value s !! 1%nat = Some v1 →
  f_ltb (nanosToMillis v1) f_zero = true →
  ∃ c',
    processSample locations s c = Panic c' ∧
    (∀ function x, timeUsed c !! function = Some x →
                   timeUsed c' !! function = Some x) ∧
    (timeUsed c !! frameName locations l0 = None →
     timeUsed c' !! frameName locations l0 = Some f_zero) ∧
    (∀ function, function ≠ frameName locations l0 →
                 timeUsed c' !! function = timeUsed c !! function) ∧
    timeUsedCum c' = timeUsedCum c ∧
    sameLifecycle c c'.
Proof.
  intros Hl0 Hv1 Hv. eexists. split; [by apply (processSample_panic _ _ _ l0 v1)|].
  cbn [timeUsed timeUsedCum set_timeUsed]. split_and!; try done.
  - intros function x Hx.
    destruct (decide (frameName locations l0 = function)) as [<-|Hne].
    + by rewrite WithLabelValues_lookup, Hx.
    + by rewrite WithLabelValues_lookup_ne.
  - intros Hnone. by rewrite WithLabelValues_lookup, Hnone.
  - intros function Hne. by rewrite WithLabelValues_lookup_ne.
Qed.

(** A sample of -1 ms in [f] on a fresh collector. *)
Lemma processSample_negative_amount_witness :
  let FL := ieee_float64 in
  ∃ c',
    processSample
      (mapLocations (PLocation Scenario.profile) Scenario.adjacentSymbols)
      {| SLocation := [Scenario.at120]; Value := [1; -1000000] |}
      (NewCPUProfileCollector Scenario.adjacentSymbols) = Panic c' ∧
    timeUsed c' !! "f" = Some 0%float ∧ timeUsedCum c' = ∅.
Proof.
  intros FL.
  destruct (processSample_negative_amount
              (mapLocations (PLocation Scenario.profile)
                 Scenario.adjacentSymbols)
              {| SLocation := [Scenario.at120]; Value := [1; -1000000] |}
              (NewCPUProfileCollector Scenario.adjacentSymbols)
              Scenario.at120 (-1000000))
    as (c' & Hrun & _ & Hnew & _ & Hcum & _); [reflexivity..|].
  exists c'. split_and!; [exact Hrun|exact (Hnew eq_refl)|exact Hcum].
Defined.

(** X7. When a scrape returns and when it panics: a scrape of a stopped
    collector always returns; a scrape of a running collector returns
    exactly when the decoder accepts the drained bytes and every sample
    of the profile is passed over or has an amount that is not below
    zero. *)
Theorem Collect_returned {FL : Float64} (Parse : bytes → ParseResult)
    (w : World) :
  returned (Collect Parse w) =
  if running (collector w) then
    match Parse (concat (profileData w)) with
    | ParseOk p => forallb creditable (PSample p)
    | ParseErr _ => false
    end
  else true.
Proof.
  destruct (running (collector w)) eqn:Hrun.
  - rewrite Collect_running by done.
    destruct (Parse _) as [p|err]; [|done].
    rewrite <- (aggregate_returned
      (mapLocations (PLocation p) (symbols (collector w))) (PSample p)
      (collector w)).
    by destruct (forEach _ _ _).
  - by rewrite Collect_not_running.
Qed.

(** X8. The aggregation is not undone and not resumed after a panic: when
    the samples before [bad] get through and [bad] has an amount below
    zero, the scrape panics in the state that processing the samples up
    to and including [bad] has produced, with the rate at 0 and the
    buffer drained; the samples behind [bad] are never processed. *)
Theorem Collect_stops_at_panic {FL : Float64} (Parse : bytes → ParseResult)
    (w : World) (p : Profile) (good rest : list Sample) (bad : Sample) :
  running (collector w) = true →
  Parse (concat (profileData w)) = ParseOk p →
  PSample p = good ++ bad :: rest →
  forallb creditable good = true →
  creditable bad = false →
  Collect Parse w =
  Panic (drained (finalState
    (forEach (good ++ [bad])
       (processSample (mapLocations (PLocation p) (symbols (collector w))))
       (collector w)))).
Proof.
  intros Hrun Hp Hsplit Hgood Hbad.
  rewrite Collect_running, Hp, Hsplit by done.
  rewrite !forEach_app.
  pose proof (aggregate_returned
    (mapLocations (PLocation p) (symbols (collector w))) good (collector w))
    as Hret.
  rewrite Hgood in Hret.
  destruct (forEach good _ _) as [[] c1|c1]; [|done].
  simpl. unfold bind.
  pose proof (processSample_returned
    (mapLocations (PLocation p) (symbols (collector w))) bad c1) as Hb.
  rewrite Hbad in Hb.
  by destruct (processSample _ bad c1) as [[] c2|c2].
Qed.

(** The recursive sample, then one of -1 ms, then the sample outside the
    symbols: the scrape panics with 300 ms for [f] and nothing under the
    empty label. *)
Lemma Collect_stops_at_panic_witness :
  let FL := ieee_float64 in
  let bad := {| SLocation := [Scenario.at120]; Value := [1; -1000000] |} in
  let p := {| PLocation := PLocation Scenario.profile;
              PSample := [Scenario.recursive] ++ bad :: [Scenario.outside] |} in
  let w := {| collector :=
                set_running true (NewCPUProfileCollector Scenario.adjacentSymbols);
              profileRate := cpuProfileRate; profileData := [] |} in
  Collect (λ _, ParseOk p) w =
  Panic (drained (finalState
    (forEach ([Scenario.recursive] ++ [bad])
       (processSample (mapLocations (PLocation p) (symbols (collector w))))
       (collector w)))).
Proof.
  intros FL bad p w.
  apply (Collect_stops_at_panic (λ _, ParseOk p) w p
           [Scenario.recursive] [Scenario.outside] bad); reflexivity.
Defined.

(** X9. Of the value vector only the second entry is read: two samples
    with the same stack and the same [Value[1]] (or both without one)
    are processed alike, whatever the sample count in [Value[0]] and
    whatever follows [Value[1]]. *)
Theorem processSample_second_value {FL : Float64} (locations : gmap Z string)
    (s1 s2 : Sample) (c : cpuProfileCollector) :
  SLocation s1 = SLocation s2 →
  Value s1 !! 1%nat = Value s2 !! 1%nat →
  processSample locations s1 c = processSample locations s2 c.
Proof.
  intros Hstack Hval. unfold processSample. rewrite Hstack, Hval.
  assert ((length (Value s1) <? 2)%nat = (length (Value s2) <? 2)%nat) as ->;
    [|done].
  destruct (Value s2 !! 1%nat) as [v1|] eqn:E.
  - apply lookup_lt_Some in Hval, E.
    by rewrite !(proj2 (Nat.ltb_ge _ _)) by lia.
  - apply lookup_ge_None in Hval, E.
    by rewrite !(proj2 (Nat.ltb_lt _ _)) by lia.
Qed.

(** A sample count of 7 and a third value change nothing. *)
Lemma processSample_second_value_witness :
  let FL := ieee_float64 in
  processSample ∅ {| SLocation := [Scenario.at120];
                     Value := [7; 300000000; 5] |}
    (NewCPUProfileCollector []) =
  processSample ∅ {| SLocation := [Scenario.at120];
                     Value := [1; 300000000] |}
    (NewCPUProfileCollector []).
Proof.
  intros FL.
  apply (processSample_second_value (FL := FL)); reflexivity.
Defined.

(** ** Further properties of the life cycle *)

Section LifecycleMore.

Context {FL : Float64}.

Variable Parse : bytes → ParseResult.

Implicit Types (w : World) (c : cpuProfileCollector).

(** What holds after every operation, returning or panicking, holds
    after every run. *)
Lemma run_finalState_inv (P : World → Prop) (ops : list Op) w :
  (∀ op w, P w → P (finalState (step Parse op w))) →
  P w → P (finalState (run Parse ops w)).
Proof.
  intros Hstep. revert w. induction ops as [|op ops IH]; intros w Hw; simpl;
    [done|].
  unfold bind. specialize (Hstep op w Hw).
  destruct (step Parse op w) as [ch w1|w1]; simpl in Hstep; [|done].
  specialize (IH w1 Hstep). unfold ret.
  by destruct (run Parse ops w1) as [ch' w2|w2].
Qed.

(** What every operation that returns keeps, a run that returns has
    kept. *)
Lemma run_returned_inv (P : World → Prop) (ops : list Op) w ch w' :
  (∀ op w ch w', P w → step Parse op w = Return ch w' → P w') →
  P w → run Parse ops w = Return ch w' → P w'.
Proof.
  intros Hstep. revert w ch. induction ops as [|op ops IH]; intros w ch Hw;
    simpl.
  - by intros [= _ <-].
  - unfold bind. destruct (step Parse op w) as [ch1 w1|w1] eqn:E1; [|done].
    destruct (run Parse ops w1) as [ch2 w2|w2] eqn:E2; [|done].
    intros [= _ <-]. eapply IH; [|done]. by eapply Hstep.
Qed.

(** A scrape, returning or panicking, leaves [running], the event
    counters and the symbols alone. *)
Lemma Collect_lifecycle w :
  sameLifecycle (collector w) (collector (finalState (Collect Parse w))).
Proof.
  destruct (running (collector w)) eqn:Hrun.
  - rewrite Collect_running by done.
    destruct (Parse _) as [p|err]; [|done].
    pose proof (aggregate_lifecycle
      (mapLocations (PLocation p) (symbols (collector w))) (PSample p)
      (collector w)) as Hsame.
    by destruct (forEach _ _ _) as [[] c'|c'].
  - by rewrite Collect_not_running.
Qed.

Lemma step_countsConsistent op w :
  countsConsistent (collector w) →
  countsConsistent (collector (finalState (step Parse op w))).
Proof.
  unfold countsConsistent. intros Hw. destruct op as [| | |data]; simpl.
  - unfold bind, ret. destruct (running (collector w)) eqn:Hrun.
    + rewrite Start_running by done. simpl. by rewrite Hrun.
    + rewrite Start_stopped by done. simpl. unfold Inc. lia.
  - unfold bind, ret. destruct (running (collector w)) eqn:Hrun.
    + rewrite Stop_running by done. simpl. unfold Inc. lia.
    + rewrite Stop_stopped by done. simpl. by rewrite Hrun.
  - destruct (Collect_lifecycle w) as (-> & -> & -> & _). done.
  - done.
Qed.

Lemma step_symbols op w :
  symbols (collector (finalState (step Parse op w))) = symbols (collector w).
Proof.
  destruct op as [| | |data]; simpl.
  - unfold bind, ret. destruct (running (collector w)) eqn:Hrun.
    + by rewrite Start_running.
    + by rewrite Start_stopped.
  - unfold bind, ret. destruct (running (collector w)) eqn:Hrun.
    + by rewrite Stop_running.
    + by rewrite Stop_stopped.
  - by destruct (Collect_lifecycle w) as (_ & _ & _ & ->).
  - done.
Qed.

(** The keys of the cumulative counters after crediting a stack. *)
Lemma fold_credit_is_Some (locations : gmap Z string) (stack : list Location)
    (v : float64) (vec : gmap string float64) (function : string) :
  is_Some (vec !! function) ∨
    (∃ l, l ∈ stack ∧ frameName locations l = function) →
  is_Some (fold_left (λ vec l, credit (frameName locations l) v vec)
             stack vec !! function).
Proof.
  revert vec. induction stack as [|l stack IH]; intros vec; simpl.
  - intros [H|(l & Hl & _)]; [done|by apply elem_of_nil in Hl].
  - intros H. apply IH.
    destruct (decide (frameName locations l = function)) as [<-|Hne].
    + left. rewrite credit_lookup. by eexists.
    + rewrite credit_lookup_ne by done.
      destruct H as [H|(l' & Hl' & Hname)]; [by left|].
      apply elem_of_cons in Hl' as [->|Hl']; [done|]. right. by exists l'.
Qed.

Lemma processSample_selfWithinCum (locations : gmap Z string) (s : Sample)
    c c' :
  selfWithinCum c → processSample locations s c = Return tt c' →
  selfWithinCum c'.
Proof.
  intros Hc Hrun.
  pose proof (processSample_returned locations s c) as Hret.
  rewrite Hrun in Hret. simpl in Hret. unfold creditable in Hret.
  destruct (skipped s) eqn:Hskip.
  - rewrite skipped_true in Hrun by done. by injection Hrun as <-.
  - destruct (skipped_false s Hskip) as (l0 & v1 & Hl0 & Hv1).
    rewrite Hv1 in Hret. simpl in Hret. symmetry in Hret.
    apply negb_true_iff in Hret.
    rewrite (processSample_valid _ _ _ l0 v1) in Hrun by done.
    injection Hrun as <-. intros function.
    cbn [timeUsed timeUsedCum set_timeUsed set_timeUsedCum].
    intros Hself. apply fold_credit_is_Some.
    destruct (decide (frameName locations l0 = function)) as [<-|Hne].
    + right. exists l0. split; [|done].
      apply list_elem_of_lookup. by exists 0%nat.
    + left. apply Hc. by rewrite credit_lookup_ne in Hself.
Qed.

Lemma step_selfWithinCum op w ch w' :
  selfWithinCum (collector w) → step Parse op w = Return ch w' →
  selfWithinCum (collector w').
Proof.
  intros Hw. destruct op as [| | |data]; simpl; unfold bind, ret.
  - destruct (running (collector w)) eqn:Hrun.
    + rewrite Start_running by done. by intros [= _ <-].
    + rewrite Start_stopped by done. by intros [= _ <-].
  - destruct (running (collector w)) eqn:Hrun.
    + rewrite Stop_running by done. by intros [= _ <-].
    + rewrite Stop_stopped by done. by intros [= _ <-].
  - destruct (running (collector w)) eqn:Hrun.
    + rewrite Collect_running by done.
      destruct (Parse _) as [p|err]; [|done].
      destruct (forEach _ _ _) as [[] c'|c'] eqn:E; [|done].
      intros [= _ <-]. simpl.
      eapply (forEach_returned_inv selfWithinCum); [|exact Hw|exact E].
      intros s c1 c2. apply processSample_selfWithinCum.
    + rewrite Collect_not_running by done. by intros [= _ <-].
  - by intros [= _ <-].
Qed.

End LifecycleMore.

(** X10. The event counters and [running] stay in step over every run of
    operations from a fresh collector, also one that ends in a panic:
    [started] exceeds [stopped] by one while the collector is running
    and equals it while the collector is stopped. *)
Theorem counts_consistent {FL : Float64} (Parse : bytes → ParseResult)
    (symbols : list Sym) (ops : list Op) :
  let c := collector (finalState (run Parse ops (newWorld symbols))) in
  started c = (stopped c + (if running c then 1 else 0))%N.
Proof.
  apply (run_finalState_inv Parse (λ w, countsConsistent (collector w))).
  - apply step_countsConsistent.
  - reflexivity.
Qed.

(** X11. The symbol table of the collector is never changed: after every
    run of operations, also one that ends in a panic, it is the table
    the collector was created with. A scrape, returning or panicking,
    changes neither [running] nor [started] nor [stopped]. *)
Theorem symbols_never_change {FL : Float64} (Parse : bytes → ParseResult)
    (w : World) :
  (∀ ops, symbols (collector (finalState (run Parse ops w)))
          = symbols (collector w)) ∧
  sameLifecycle (collector w) (collector (finalState (Collect Parse w))).
Proof.
  split; [|apply Collect_lifecycle].
  intros ops.
  apply (run_finalState_inv Parse
           (λ w', symbols (collector w') = symbols (collector w))); [|done].
  intros op w' Hw'. by rewrite step_symbols.
Qed.

(** X12. Over every run of operations from a fresh collector that
    returns, every function that has a self-time counter has a
    cumulative counter as well. *)
Theorem self_within_cumulative {FL : Float64} (Parse : bytes → ParseResult)
    (symbols : list Sym) (ops : list Op) (ch : list Metric) (w' : World) :
  run Parse ops (newWorld symbols) = Return ch w' →
  ∀ function, is_Some (timeUsed (collector w') !! function) →
              is_Some (timeUsedCum (collector w') !! function).
Proof.
  intros Hrun.
  refine (run_returned_inv Parse (λ w, selfWithinCum (collector w))
            ops (newWorld symbols) ch w' _ _ Hrun).
  - intros op w. apply step_selfWithinCum.
  - intros function Hsome. simpl in Hsome. rewrite lookup_empty in Hsome.
    by destruct Hsome.
Qed.

(** After one scrape of the scenario's profile the empty label has a
    self-time counter, and so it has a cumulative counter. *)
Lemma self_within_cumulative_witness :
  let FL := ieee_float64 in
  let e := run Scenario.decodes [OpStart; OpCollect]
             (newWorld Scenario.adjacentSymbols) in
  is_Some (timeUsedCum (collector (finalState e)) !! "").
Proof.
  intros FL e.
  destruct e as [ch w'|w'] eqn:E; [|vm_compute in E; discriminate E].
  apply (self_within_cumulative (FL := FL) Scenario.decodes
           Scenario.adjacentSymbols [OpStart; OpCollect] ch w' E "").
  vm_compute in E. injection E as _ <-. by eexists.
Defined.

(** X13. [Stop] does not drain the profiler: a scrape right after the
    [Stop] of a running collector publishes and returns, and the profile
    data that was buffered before the [Stop] is still buffered, none of
    it decoded or aggregated. *)
Theorem Stop_keeps_buffer {FL : Float64} (Parse : bytes → ParseResult)
    (w : World) :
  running (collector w) = true →
  ∃ w',
    run Parse [OpStop; OpCollect] w = Return (publish (collector w')) w' ∧
    profileData w' = profileData w ∧
    timeUsed (collector w') = timeUsed (collector w) ∧
    timeUsedCum (collector w') = timeUsedCum (collector w) ∧
    running (collector w') = false ∧ profileRate w' = 0.
Proof.
  intros Hrun. eexists. split.
  - simpl. unfold bind, ret. rewrite (Stop_running w Hrun).
    rewrite Collect_not_running by done. cbn [app]. rewrite app_nil_r.
    reflexivity.
  - done.
Qed.

(** A started collector with one chunk buffered. *)
Lemma Stop_keeps_buffer_witness :
  let FL := ieee_float64 in
  let w := {| collector :=
                set_running true (NewCPUProfileCollector Scenario.adjacentSymbols);
              profileRate := cpuProfileRate; profileData := [[]] |} in
  ∃ w', run Scenario.malformed [OpStop; OpCollect] w
          = Return (publish (collector w')) w' ∧
        profileData w' = [[]].
Proof.
  intros FL w.
  destruct (Stop_keeps_buffer (FL := FL) Scenario.malformed w)
    as (w' & Hrun & Hdata & _); [reflexivity|].
  exists w'. split; [exact Hrun|exact Hdata].
Defined.

(** X14. A scrape of a running collector sees the buffered profile data
    only as one byte string: how the runtime has cut it into chunks, and
    the rate the profiler had, make no difference to what the scrape
    returns or to the state it ends in. *)
Theorem Collect_concat {FL : Float64} (Parse : bytes → ParseResult)
    (w1 w2 : World) :
  running (collector w1) = true →
  collector w1 = collector w2 →
  concat (profileData w1) = concat (profileData w2) →
  Collect Parse w1 = Collect Parse w2.
Proof.
  intros Hrun Hc Hdata.
  rewrite !Collect_running by congruence. by rewrite Hc, Hdata.
Qed.

(** The same three bytes in one chunk and in two. *)
Lemma Collect_concat_witness :
  let FL := ieee_float64 in
  let c := set_running true (NewCPUProfileCollector Scenario.adjacentSymbols) in
  Collect Scenario.decodes
    {| collector := c; profileRate := cpuProfileRate;
       profileData := [[Byte.x61; Byte.x62; Byte.x63]] |} =
  Collect Scenario.decodes
    {| collector := c; profileRate := 0;
       profileData := [[Byte.x61]; [Byte.x62; Byte.x63]] |}.
Proof.
  intros FL c.
  apply (Collect_concat (FL := FL) Scenario.decodes); reflexivity.
Defined.

(** ** What is published *)

Section Published.

Context {FL : Float64}.

Implicit Types (c : cpuProfileCollector) (vec : gmap string float64)
  (m : Metric).

(** The metrics of a counter vector: one for each child, under the name
    of the vector and the child's label value. *)
Lemma CounterVec_Collect_elem (name : string) vec m :
  m ∈ CounterVec_Collect name vec ↔
  ∃ lv x, vec !! lv = Some x ∧
          m = {| fqName := BuildFQName namespace cpuSubsystem name;
                 labels := [("function", lv)];
                 value := FloatValue x |}.
Proof.
  unfold CounterVec_Collect. rewrite list_elem_of_fmap. split.
  - intros ([lv x] & -> & Hin). apply elem_of_map_to_list in Hin.
    by exists lv, x.
  - intros (lv & x & Hx & ->). exists (lv, x).
    split; [done|]. by apply elem_of_map_to_list.
Qed.

Lemma CounterVec_Collect_NoDup (name : string) vec :
  NoDup (metricKey <$> CounterVec_Collect name vec).
Proof.
  unfold CounterVec_Collect. rewrite <- list_fmap_compose.
  apply NoDup_fmap_2_strong; [|apply NoDup_map_to_list].
  intros [lv1 x1] [lv2 x2] H1 H2 Heq.
  unfold metricKey in Heq. simpl in Heq. injection Heq as ->.
  apply elem_of_map_to_list in H1, H2. congruence.
Qed.

Lemma CounterVec_Collect_key (name : string) vec (key : string * list (string * string)) :
  key ∈ metricKey <$> CounterVec_Collect name vec →
  key.1 = BuildFQName namespace cpuSubsystem name.
Proof.
  rewrite list_elem_of_fmap. intros (m & -> & Hm).
  apply CounterVec_Collect_elem in Hm as (lv & x & _ & ->). done.
Qed.

End Published.

(** X15. A scrape publishes one metric for each child of the self-time
    vector, one for each child of the cumulative vector, and the two
    event counters, and no two of the published metrics have the same
    name and labels. *)
Theorem publish_one_per_child {FL : Float64} (c : cpuProfileCollector) :
  length (publish c) =
    (size (timeUsed c) + size (timeUsedCum c) + 2)%nat ∧
  NoDup (metricKey <$> publish c).
Proof.
  split.
  - unfold publish, CounterVec_Collect, Counter_Collect.
    rewrite !length_app, !length_fmap, !length_map_to_list. simpl. lia.
  - unfold publish. rewrite !fmap_app.
    apply NoDup_app. split_and!.
    + apply CounterVec_Collect_NoDup.
    + intros key Hself Hrest.
      apply CounterVec_Collect_key in Hself.
      apply elem_of_app in Hrest as [Hcum|Hrest].
      * apply CounterVec_Collect_key in Hcum. rewrite Hself in Hcum.
        discriminate Hcum.
      * apply elem_of_app in Hrest as [Hev|Hev];
          apply list_elem_of_singleton in Hev; rewrite Hev in Hself;
          discriminate Hself.
    + apply NoDup_app. split_and!.
      * apply CounterVec_Collect_NoDup.
      * intros key Hcum Hrest. apply CounterVec_Collect_key in Hcum.
        apply elem_of_app in Hrest as [Hev|Hev];
          apply list_elem_of_singleton in Hev; rewrite Hev in Hcum;
          discriminate Hcum.
      * apply NoDup_app. split_and!; [apply NoDup_singleton| |apply NoDup_singleton].
        intros key Hstart Hstop.
        apply list_elem_of_singleton in Hstart, Hstop.
        rewrite Hstart in Hstop. discriminate Hstop.
Qed.

(** X16. Every metric that a scrape publishes is announced by [Describe]:
    there is a descriptor with the metric's name whose variable labels
    are the names of the metric's labels. The four descriptors have
    different names. *)
Theorem Describe_covers_publish {FL : Float64} (c : cpuProfileCollector) :
  (∀ m, m ∈ publish c →
        ∃ d, d ∈ Describe c ∧ descFqName d = fqName m ∧
             variableLabels d = (labels m).*1) ∧
  NoDup (descFqName <$> Describe c).
Proof.
  split.
  - intros m Hm. unfold publish in Hm.
    apply elem_of_app in Hm as [Hm|Hm];
      [|apply elem_of_app in Hm as [Hm|Hm];
        [|apply elem_of_app in Hm as [Hm|Hm]]].
    + apply CounterVec_Collect_elem in Hm as (lv & x & _ & ->).
      exists timeUsedDesc. split; [|done]. apply list_elem_of_here.
    + apply CounterVec_Collect_elem in Hm as (lv & x & _ & ->).
      exists timeUsedCumDesc. split; [|done].
      apply list_elem_of_further, list_elem_of_here.
    + apply list_elem_of_singleton in Hm as ->.
      exists startedDesc. split; [|done].
      do 2 apply list_elem_of_further. apply list_elem_of_here.
    + apply list_elem_of_singleton in Hm as ->.
      exists stoppedDesc. split; [|done].
      do 3 apply list_elem_of_further. apply list_elem_of_here.
  - apply (bool_decide_unpack _). by vm_compute.
Qed.

(** ** The functions that have counters *)

Section Labels.

Context {FL : Float64}.

Implicit Types (c : cpuProfileCollector) (vec : gmap string float64)
  (locations : gmap Z string).

Lemma dom_credit (lv : string) (v : float64) vec :
  dom (credit lv v vec) = {[lv]} ∪ dom vec.
Proof. unfold credit. apply dom_insert_L. Qed.

Lemma dom_fold_credit locations (stack : list Location) (v : float64) vec :
  dom (fold_left (λ vec l, credit (frameName locations l) v vec) stack vec)
  = list_to_set (frameName locations <$> stack) ∪ dom vec.
Proof.
  revert vec. induction stack as [|l stack IH]; intros vec; simpl.
  - by rewrite (left_id_L ∅ (∪)).
  - rewrite IH, dom_credit.
    by rewrite (assoc_L (∪)), (comm_L (∪) (list_to_set _) {[_]}).
Qed.

Lemma processSample_dom locations (s : Sample) c c' :
  processSample locations s c = Return tt c' →
  dom (timeUsed c') = dom (timeUsed c) ∪ list_to_set (leafNames locations [s]) ∧
  dom (timeUsedCum c') =
    dom (timeUsedCum c) ∪ list_to_set (stackNames locations [s]).
Proof.
  intros Hrun.
  pose proof (processSample_returned locations s c) as Hret.
  rewrite Hrun in Hret. simpl in Hret. unfold creditable in Hret.
  unfold leafNames, stackNames. simpl.
  destruct (skipped s) eqn:Hskip.
  - rewrite skipped_true in Hrun by done. injection Hrun as <-.
    simpl. by rewrite !(right_id_L ∅ (∪)).
  - destruct (skipped_false s Hskip) as (l0 & v1 & Hl0 & Hv1).
    rewrite Hv1 in Hret. simpl in Hret. symmetry in Hret.
    apply negb_true_iff in Hret.
    rewrite (processSample_valid _ _ _ l0 v1) in Hrun by done.
    injection Hrun as <-. rewrite Hl0.
    cbn [timeUsed timeUsedCum set_timeUsed set_timeUsedCum].
    rewrite dom_credit, dom_fold_credit, app_nil_r. simpl.
    rewrite (right_id_L ∅ (∪)). split; by rewrite (comm_L (∪)).
Qed.

Lemma leafNames_cons locations (s : Sample) (samples : list Sample) :
  leafNames locations (s :: samples) =
  leafNames locations [s] ++ leafNames locations samples.
Proof.
  unfold leafNames. simpl.
  by destruct (if skipped s then None else _).
Qed.

Lemma stackNames_cons locations (s : Sample) (samples : list Sample) :
  stackNames locations (s :: samples) =
  stackNames locations [s] ++ stackNames locations samples.
Proof. unfold stackNames. simpl. by rewrite app_nil_r. Qed.

Lemma aggregate_dom locations (samples : list Sample) c c' :
  forEach samples (processSample locations) c = Return tt c' →
  dom (timeUsed c') =
    dom (timeUsed c) ∪ list_to_set (leafNames locations samples) ∧
  dom (timeUsedCum c') =
    dom (timeUsedCum c) ∪ list_to_set (stackNames locations samples).
Proof.
  revert c. induction samples as [|s samples IH]; intros c.
  - intros [= <-]. unfold leafNames, stackNames. simpl.
    by rewrite !(right_id_L ∅ (∪)).
  - cbn [forEach]. unfold bind.
    destruct (processSample locations s c) as [[] c1|c1] eqn:E; [|done].
    intros Hrest. destruct (IH c1 Hrest) as [Hself Hcum].
    destruct (processSample_dom _ _ _ _ E) as [Hself1 Hcum1].
    rewrite Hself, Hcum, Hself1, Hcum1.
    rewrite (leafNames_cons _ s samples), (stackNames_cons _ s samples).
    rewrite !list_to_set_app_L.
    split; by rewrite (assoc_L (∪)).
Qed.

End Labels.

(** X17. After a scrape of a running collector that returns, the
    functions with a self-time counter are those that had one before
    together with the functions of the leaves of the profile's samples
    that were not passed over, and the functions with a cumulative
    counter are those that had one before together with the functions of
    all frames of those samples. What is published is the state the
    scrape ends in. *)
Theorem Collect_labels {FL : Float64} (Parse : bytes → ParseResult)
    (w w' : World) (p : Profile) (ch : list Metric) :
  running (collector w) = true →
  Parse (concat (profileData w)) = ParseOk p →
  Collect Parse w = Return ch w' →
  let locations := mapLocations (PLocation p) (symbols (collector w)) in
  dom (timeUsed (collector w')) =
    dom (timeUsed (collector w)) ∪
    list_to_set (leafNames locations (PSample p)) ∧
  dom (timeUsedCum (collector w')) =
    dom (timeUsedCum (collector w)) ∪
    list_to_set (stackNames locations (PSample p)) ∧
  ch = publish (collector w').
Proof.
  intros Hrun Hp. rewrite Collect_running, Hp by done.
  destruct (forEach _ _ _) as [[] c'|c'] eqn:E; [|done].
  intros [= <- <-]. simpl.
  destruct (aggregate_dom _ _ _ _ E) as [Hself Hcum]. done.
Qed.

(** One scrape of the scenario's profile by a started collector: the
    empty label has a self-time counter and [f] a cumulative one. *)
Lemma Collect_labels_witness :
  let FL := ieee_float64 in
  let w := {| collector :=
                set_running true (NewCPUProfileCollector Scenario.adjacentSymbols);
              profileRate := cpuProfileRate; profileData := [] |} in
  let e := Collect Scenario.decodes w in
  "" ∈ dom (timeUsed (collector (finalState e))) ∧
  "f" ∈ dom (timeUsedCum (collector (finalState e))).
Proof.
  intros FL w e.
  destruct e as [ch w'|w'] eqn:E; [|vm_compute in E; discriminate E].
  destruct (Collect_labels (FL := FL) Scenario.decodes w w' Scenario.profile ch)
    as (Hself & Hcum & _); [reflexivity|reflexivity|exact E|].
  simpl finalState. rewrite Hself, Hcum.
  split; apply elem_of_union_r, elem_of_list_to_set.
  - change (leafNames _ _) with ["f"; ""].
    apply list_elem_of_further, list_elem_of_here.
  - change (stackNames _ _) with ["f"; "f"; ""; "f"].
    apply list_elem_of_here.
Defined.

(** X18. A scrape of a running collector leaves the runtime's buffer
    empty whether it returns or panics, and leaves the profiler's rate
    at [cpuProfileRate] when it returns and at 0 when it panics. A scrape
    of a stopped collector touches neither. *)
Theorem Collect_buffer_and_rate {FL : Float64} (Parse : bytes → ParseResult)
    (w : World) :
  let e := Collect Parse w in
  if running (collector w) then
    profileData (finalState e) = [] ∧
    profileRate (finalState e) = (if returned e then cpuProfileRate else 0)
  else
    profileData (finalState e) = profileData w ∧
    profileRate (finalState e) = profileRate w.
Proof.
  simpl. destruct (running (collector w)) eqn:Hrun.
  - rewrite Collect_running by done.
    destruct (Parse _) as [p|err]; [|done].
    by destruct (forEach _ _ _) as [[] c'|c'].
  - by rewrite Collect_not_running.
Qed.
